(** * BEM-Helper: the interpolation routines of [interpolate-slow.py]

    A shallow embedding of the numerical core of the module
    (the point de-duplication at the end of [prepare_for_interpolation],
    [interpolate_BC], [construct_vertices] and [fast_interpolate]) together
    with the properties its design document states about them.

    Number model.  The arrays of the program hold IEEE doubles.  Here a
    scalar is either the not-a-number value or an exact rational: the
    arithmetic propagates not-a-number the way IEEE arithmetic does, and is
    exact on numbers, so rounding, overflow and signed zeros are outside the
    model.  Every equation below is an equation of exact arithmetic.

    External libraries.  [scipy.spatial.qhull.Delaunay],
    [scipy.interpolate.griddata] are not part of the module; they enter as
    an interface ([qhull]) and as a recorded call ([Griddata]). *)

From Stdlib Require Import Ascii String Bool Arith ZArith QArith Qcanon Qcabs Lia List Sorted.
Import ListNotations.

(* ================================================================= *)
(** ** Scalars: exact numbers and not-a-number *)

Inductive float : Type :=
| nan : float
| num (q : Qc) : float.

Declare Scope float_scope.
Delimit Scope float_scope with float.
Bind Scope float_scope with float.

Definition is_nan (x : float) : bool :=
  match x with nan => true | num _ => false end.

Definition is_num (x : float) : Prop := exists q, x = num q.

Definition lift2 (op : Qc -> Qc -> Qc) (x y : float) : float :=
  match x, y with
  | num p, num q => num (op p q)
  | _, _ => nan
  end.

Definition fadd : float -> float -> float := lift2 Qcplus.
Definition fsub : float -> float -> float := lift2 Qcminus.
Definition fmul : float -> float -> float := lift2 Qcmult.

Definition fzero : float := num (Q2Qc 0).
Definition fone : float := num (Q2Qc 1).

Infix "+" := fadd : float_scope.
Infix "-" := fsub : float_scope.
Infix "*" := fmul : float_scope.

(** Comparisons are false as soon as one side is not-a-number, except
    [!=], which is then true. *)
Definition cmp_num (test : comparison -> bool) (x y : float) : bool :=
  match x, y with
  | num p, num q => test (Qccompare p q)
  | _, _ => false
  end.

Definition flt : float -> float -> bool :=
  cmp_num (fun c => match c with Lt => true | _ => false end).
Definition fle : float -> float -> bool :=
  cmp_num (fun c => match c with Gt => false | _ => true end).
Definition fgt (x y : float) : bool := flt y x.
Definition fge (x y : float) : bool := fle y x.
Definition feq : float -> float -> bool :=
  cmp_num (fun c => match c with Eq => true | _ => false end).
Definition fne (x y : float) : bool := negb (feq x y).

(** The sum of a sequence of scalars, from the left, starting at zero. *)
Definition fsum (l : list float) : float := fold_left fadd l fzero.

(** Decimal literals used in the examples. *)
Definition qc (n : Z) (d : positive) : Qc := Q2Qc (n # d).
Definition fl (n : Z) (d : positive) : float := num (qc n d).

(* ================================================================= *)
(** ** Exceptions *)

Inductive exn : Type :=
| IndexError
| ValueError
| QhullError.

Inductive result (A : Type) : Type :=
| Ok (a : A)
| Raise (e : exn).

Arguments Ok {A} a.
Arguments Raise {A} e.

Definition bind {A B} (r : result A) (k : A -> result B) : result B :=
  match r with
  | Ok a => k a
  | Raise e => Raise e
  end.

Notation "x <- r ;; k" := (bind r (fun x => k))
  (at level 61, r at next level, right associativity).

Fixpoint mapM {A B} (f : A -> result B) (l : list A) : result (list B) :=
  match l with
  | [] => Ok []
  | a :: l' => b <- f a ;; bs <- mapM f l' ;; Ok (b :: bs)
  end.

(* ================================================================= *)
(** ** The numpy operations the module uses *)

Definition triple (A : Type) : Type := (A * A * A)%type.

(** An index [i] is accepted by an array of length [n] when
    [-n <= i < n]; a negative index counts from the end. *)
Definition in_bounds (n : nat) (i : Z) : Prop :=
  (- Z.of_nat n <= i < Z.of_nat n)%Z.

Definition in_boundsb (n : nat) (i : Z) : bool :=
  ((- Z.of_nat n <=? i) && (i <? Z.of_nat n))%Z.

(** The indices of a triple are all accepted. *)
Definition triple_in_bounds (n : nat) (v : triple Z) : Prop :=
  let '(i0, i1, i2) := v in
  in_bounds n i0 /\ in_bounds n i1 /\ in_bounds n i2.

Definition wrap_index (n : nat) (i : Z) : nat :=
  Z.to_nat (if (i <? 0)%Z then i + Z.of_nat n else i)%Z.

(** [np.take(a, i)] for one index (default [mode='raise']). *)
Definition np_take1 {A} (a : list A) (i : Z) : result A :=
  if in_boundsb (length a) i then
    match nth_error a (wrap_index (length a) i) with
    | Some x => Ok x
    | None => Raise IndexError
    end
  else Raise IndexError.

(** [np.take(a, idx, axis=0)] for a vector of indices. *)
Definition np_take {A} (a : list A) (idx : list Z) : result (list A) :=
  mapM (np_take1 a) idx.

(** [np.take(a, vertices)] for an array of index triples. *)
Definition np_take3 {A} (a : list A) (v : triple Z) : result (triple A) :=
  let '(i0, i1, i2) := v in
  x0 <- np_take1 a i0 ;; x1 <- np_take1 a i1 ;; x2 <- np_take1 a i2 ;;
  Ok (x0, x1, x2).

Definition np_take_triples {A} (a : list A) (vertices : list (triple Z))
  : result (list (triple A)) :=
  mapM (np_take3 a) vertices.

(** Broadcasting of the leading axis of two operands: equal lengths pair
    up, a length of one is repeated, anything else is refused. *)
Definition broadcast {A B} (a : list A) (b : list B) : result (list (A * B)) :=
  if Nat.eqb (length a) (length b) then Ok (combine a b)
  else match a, b with
       | [x], _ => Ok (map (fun y => (x, y)) b)
       | _, [y] => Ok (map (fun x => (x, y)) a)
       | _, _ => Raise ValueError
       end.

(** [np.einsum('nj,nj->n', a, b)] on rows of three entries. *)
Definition dot3 (a b : triple float) : float :=
  let '(a0, a1, a2) := a in
  let '(b0, b1, b2) := b in
  (a0 * b0 + a1 * b1 + a2 * b2)%float.

Definition einsum_nj_nj_n (a b : list (triple float)) : result (list float) :=
  rows <- broadcast a b ;;
  Ok (map (fun r => dot3 (fst r) (snd r)) rows).

(* ================================================================= *)
(** ** [fast_interpolate] *)

Definition fast_interpolate (values : list float)
    (vertices : list (triple Z)) (weights : list (triple float))
  : result (list float) :=
  taken <- np_take_triples values vertices ;;
  einsum_nj_nj_n taken weights.

(* ================================================================= *)
(** ** The triangulation object of [scipy.spatial.qhull]

    [Delaunay(xy)] is the library's; of its result the module reads the
    attributes [simplices] and [transform] and calls [find_simplex].
    Entry [i] of [transform] is a 3x2 array: rows 0 and 1 are the inverse
    of the matrix whose columns are [r0 - r2] and [r1 - r2], row 2 is the
    vertex [r2] itself.  [find_simplex] answers, for each query point, the
    index of a simplex that contains it, and -1 for a point outside the
    triangulation; the answer is taken as a function of the point alone
    ([find_simplex1]). *)

Definition point : Type := (float * float)%type.

Record affine : Type := mk_affine {
  row0 : point;
  row1 : point;
  row2 : point
}.

Record Delaunay : Type := mk_Delaunay {
  points : list point;
  simplices : list (triple Z);
  transform : list affine;
  find_simplex1 : point -> Z
}.

Definition find_simplex (tri : Delaunay) (uv : list point) : list Z :=
  map (find_simplex1 tri) uv.

Class qhull : Type := {
  qhull_Delaunay : list point -> result Delaunay
}.

(** The marker [find_simplex] gives to a point outside the hull. *)
Definition outside_marker : Z := (-1)%Z.

Definition outside_hull (tri : Delaunay) (p : point) : Prop :=
  find_simplex1 tri p = outside_marker.

(* ================================================================= *)
(** ** [construct_vertices] *)

Definition zip_with {A B C} (f : A -> B -> C) (a : list A) (b : list B)
  : list C :=
  map (fun ab => f (fst ab) (snd ab)) (combine a b).

Definition psub (p q : point) : point :=
  (fst p - fst q, snd p - snd q)%float.

(** [np.einsum('njk,nk->nj', m, delta)] for one [n]: a 2x2 matrix applied
    to a vector. *)
Definition matvec2 (m : point * point) (d : point) : point :=
  let '((m00, m01), (m10, m11)) := m in
  let '(d0, d1) := d in
  (m00 * d0 + m01 * d1, m10 * d0 + m11 * d1)%float.

(** One row of [np.hstack((bary, 1 - bary.sum(axis=1, keepdims=True)))]. *)
Definition hstack_row (b : point) : triple float :=
  (fst b, snd b, fone - (fst b + snd b))%float.

(** The weights of one query point from the transform taken for it. *)
Definition weights_row (t : affine) (p : point) : triple float :=
  let delta := psub p (row2 t) in
  let bary := matvec2 (row0 t, row1 t) delta in
  hstack_row bary.

Definition construct_vertices `{qhull} (xy uv : list point)
  : result (list (triple Z) * list (triple float)) :=
  tri <- qhull_Delaunay xy ;;
  let simplex := find_simplex tri uv in
  vertices <- np_take (simplices tri) simplex ;;
  temp <- np_take (transform tri) simplex ;;
  let delta := zip_with psub uv (map row2 temp) in
  let bary := zip_with matvec2 (map (fun t => (row0 t, row1 t)) temp) delta in
  Ok (vertices, map hstack_row bary).

(** The fast path: precompute, then evaluate a field. *)
Definition fast_path `{qhull} (xy uv : list point) (values : list float)
  : result (list float) :=
  vw <- construct_vertices xy uv ;;
  fast_interpolate values (fst vw) (snd vw).

(* ================================================================= *)
(** ** [interpolate_BC] *)

(** [np.min] and [np.max]: an empty array is refused, a not-a-number
    entry makes the result not-a-number. *)
Definition fmin (a b : float) : float :=
  if is_nan a then a else if is_nan b then b else if flt b a then b else a.

Definition fmax (a b : float) : float :=
  if is_nan a then a else if is_nan b then b else if flt a b then b else a.

Definition np_min (a : list float) : result float :=
  match a with
  | [] => Raise ValueError
  | x :: a' => Ok (fold_left fmin a' x)
  end.

Definition np_max (a : list float) : result float :=
  match a with
  | [] => Raise ValueError
  | x :: a' => Ok (fold_left fmax a' x)
  end.

(** Python's [a and b]: [b] is evaluated only when [a] is true. *)
Definition py_and (a b : result bool) : result bool :=
  x <- a ;; if x then b else Ok false.

(** The call the function hands over to:
    [interpolate.griddata(points, values, xi, method=method)]. *)
Record griddata_call : Type := Griddata {
  gd_points : list point;
  gd_values : list float;
  gd_xi : point;
  gd_method : string
}.

(** What a call of [interpolate_BC] ends in: a value it returns itself,
    or the result of the library call it returns. *)
Inductive outcome : Type :=
| Return (v : float)
| Delegate (c : griddata_call).

Definition default_method : string := "cubic".

Definition interpolate_BC (xdata ydata Udata : list float)
    (xeval yeval : float) (method : option string) : result outcome :=
  let method := match method with Some m => m | None => default_method end in
  inx <- py_and (xmin <- np_min xdata ;; Ok (fge xeval xmin))
                (xmax <- np_max xdata ;; Ok (fle xeval xmax)) ;;
  if inx then
    iny <- py_and (ymin <- np_min ydata ;; Ok (fge yeval ymin))
                  (ymax <- np_max ydata ;; Ok (fle yeval ymax)) ;;
    if iny then
      Ok (Delegate (Griddata (combine xdata ydata) Udata (xeval, yeval) method))
    else Ok (Return nan)
  else Ok (Return nan).

(** [v] lies in the closed range spanned by the data. *)
Definition in_range (v : float) (data : list float) : Prop :=
  exists lo hi, np_min data = Ok lo /\ np_max data = Ok hi /\
                fle lo v = true /\ fle v hi = true.

(* ================================================================= *)
(** ** [numpy.unique(ar, return_index=True)]

    As numpy computes it: a stable argsort of the array, then the
    positions where the sorted array differs from its predecessor.

      perm = ar.argsort(kind='mergesort')
      aux = ar[perm]
      flag = concatenate(([True], aux[1:] != aux[:-1]))
      return aux[flag], perm[flag]

    The sort is generic in the order [ltb] and the test [neb] of the
    element type.  The sorted array is kept as the list of the pairs
    [(aux[i], perm[i])]. *)

Section Unique.
Context {K : Type}.
Variable ltb : K -> K -> bool.
Variable neb : K -> K -> bool.

(** Stable insertion: the new entry goes before the first entry that is
    not smaller than it. *)
Fixpoint insert_stable (p : K * nat) (s : list (K * nat)) : list (K * nat) :=
  match s with
  | [] => [p]
  | q :: s' =>
      if ltb (fst q) (fst p) then q :: insert_stable p s' else p :: s
  end.

Definition enumerate_from (n : nat) (ar : list K) : list (K * nat) :=
  combine ar (seq n (length ar)).

Definition argsort (ar : list K) : list (K * nat) :=
  fold_right insert_stable [] (enumerate_from 0 ar).

(** Keep the entries whose flag is set; [prev] is the entry before. *)
Fixpoint flagged (prev : option K) (s : list (K * nat)) : list (K * nat) :=
  match s with
  | [] => []
  | p :: s' =>
      let flag := match prev with
                  | None => true
                  | Some k => neb (fst p) k
                  end in
      if flag then p :: flagged (Some (fst p)) s'
      else flagged (Some (fst p)) s'
  end.

Definition np_unique_index (ar : list K) : list K * list nat :=
  let kept := flagged None (argsort ar) in
  (map fst kept, map snd kept).
End Unique.

(** [a[idx]] for an array of non-negative indices. *)
Definition index_array {A} (a : list A) (idx : list nat) : result (list A) :=
  mapM (fun i => match nth_error a i with
                 | Some x => Ok x
                 | None => Raise IndexError
                 end) idx.

(* ================================================================= *)
(** ** Complex keys *)

Definition complex : Type := (float * float)%type.

Definition re (z : complex) : float := fst z.
Definition im (z : complex) : float := snd z.

Definition of_real (x : float) : complex := (x, fzero).

(** [1j] *)
Definition imag_unit : complex := (fzero, fone).

Definition cadd (a b : complex) : complex :=
  (re a + re b, im a + im b)%float.

Definition cmul (a b : complex) : complex :=
  (re a * re b - im a * im b, re a * im b + im a * re b)%float.

(** [x + 1j*y] for one entry of the arrays. *)
Definition complex_key (x y : float) : complex :=
  cadd (of_real x) (cmul imag_unit (of_real y)).

(** The order numpy sorts complex numbers in: by real part, then by
    imaginary part; entries with a not-a-number part go last. *)
Definition clt (a b : complex) : bool :=
  if flt (re a) (re b) then
    negb (is_nan (im a)) || is_nan (im b)
  else if fgt (re a) (re b) then
    is_nan (im b) && negb (is_nan (im a))
  else if feq (re a) (re b) || (is_nan (re a) && is_nan (re b)) then
    flt (im a) (im b) || (is_nan (im b) && negb (is_nan (im a)))
  else is_nan (re b).

Definition cne (a b : complex) : bool :=
  fne (re a) (re b) || fne (im a) (im b).

(* ================================================================= *)
(** ** The de-duplication of [prepare_for_interpolation]

    The last statements of the function, from the comment
    "Remove double points for the interpolation" on.  Its input are the
    arrays [x] and [y] the function has built before (one row of six
    coordinates per element, both read off [nodes] through the same index
    array, hence of one shape) and [elem_solution]. *)

Definition flatten {A} (a : list (list A)) : list A := concat a.

Fixpoint same_shape {A B} (a : list (list A)) (b : list (list B)) : bool :=
  match a, b with
  | [], [] => true
  | r :: a', s :: b' => Nat.eqb (length r) (length s) && same_shape a' b'
  | _, _ => false
  end.

(** [(x + 1j*y).flatten()]; operands of different shapes are refused. *)
Definition complex_keys (x y : list (list float)) : result (list complex) :=
  if same_shape x y then Ok (zip_with complex_key (flatten x) (flatten y))
  else Raise ValueError.

Definition prepare_for_interpolation_unique
    (x y : list (list float)) (elem_solution : list float)
  : result (list float * list float * list float) :=
  keys <- complex_keys x y ;;
  let '(unique_points, unique_indices) := np_unique_index clt cne keys in
  x_unique <- index_array (flatten x) unique_indices ;;
  y_unique <- index_array (flatten y) unique_indices ;;
  U_unique <- index_array elem_solution unique_indices ;;
  Ok (x_unique, y_unique, U_unique).

(** The first position of [k] in [ar]. *)
Definition first_occurrence {A} (ar : list A) (k : A) (i : nat) : Prop :=
  nth_error ar i = Some k /\ forall j, (j < i)%nat -> nth_error ar j <> Some k.

(** Increasing [x], ties broken by increasing [y]. *)
Definition coord_lt (p q : float * float) : Prop :=
  flt (fst p) (fst q) = true \/
  (fst p = fst q /\ flt (snd p) (snd q) = true).

(** A complex number without a not-a-number part. *)
Definition complex_is_num (z : complex) : Prop :=
  is_num (re z) /\ is_num (im z).

(* ================================================================= *)
(** ** Vocabulary of the statements *)




(** A call that ends in an exception. *)
Definition raises {A} (r : result A) : Prop := exists e, r = Raise e.




(** The triangulation object keeps one transform per simplex. *)
Definition well_formed (tri : Delaunay) : Prop :=
  length (transform tri) = length (simplices tri).

(** The locator answers every point of [uv] with an index the arrays of
    the triangulation accept: a simplex number, or the marker -1 when
    there is at least one simplex. *)
Definition answers_in_bounds (tri : Delaunay) (uv : list point) : Prop :=
  Forall (fun p => in_bounds (length (simplices tri)) (find_simplex1 tri p)) uv.

(** A located point: the locator names a simplex. *)
Definition located (tri : Delaunay) (p : point) : Prop :=
  (0 <= find_simplex1 tri p < Z.of_nat (length (simplices tri)))%Z.

(** The weights as the design document words them: [delta] is the query
    minus the translation, [(w0, w1)] the matrix applied to [delta], and
    [w2 = 1 - w0 - w1]. *)
Definition barycentric_weights (t : affine) (query : point) : triple float :=
  let dx := (fst query - fst (row2 t))%float in
  let dy := (snd query - snd (row2 t))%float in
  let w0 := (fst (row0 t) * dx + snd (row0 t) * dy)%float in
  let w1 := (fst (row1 t) * dx + snd (row1 t) * dy)%float in
  (w0, w1, fone - w0 - w1)%float.


(** The order of the sorted array of [numpy.unique]: by key, and among
    equal keys by position in the input. *)
Section UniqueOrder.
Context {K : Type}.
Variable ltb : K -> K -> bool.

Definition key_lt (a b : K) : Prop := ltb a b = true.

Definition entry_lt (p q : K * nat) : Prop :=
  ltb (fst p) (fst q) = true \/ (fst p = fst q /\ (snd p < snd q)%nat).
End UniqueOrder.

(* ================================================================= *)
(** ** A stand-in for the triangulator, for running the code

    The barycentric transform of a triangle with vertices [r0 r1 r2], as
    the library defines it, and a locator that tries the simplices in
    turn.  [mesh_qhull simp] answers every point set with the
    triangulation whose connectivity is [simp]. *)

Definition fdiv (x y : float) : float :=
  match x, y with
  | num p, num q =>
      match Qccompare q (Q2Qc 0) with
      | Eq => nan
      | _ => num (p / q)
      end
  | _, _ => nan
  end.

Definition triangle_transform (r0 r1 r2 : point) : affine :=
  let '(a, c) := psub r0 r2 in
  let '(b, d) := psub r1 r2 in
  let inv := fdiv fone (a * d - b * c)%float in
  mk_affine (d * inv, (fzero - b) * inv)%float
            ((fzero - c) * inv, a * inv)%float
            r2.

Definition simplex_transform (pts : list point) (s : triple Z)
  : result affine :=
  r <- np_take3 pts s ;;
  let '(r0, r1, r2) := r in
  let t := triangle_transform r0 r1 r2 in
  if is_nan (fst (row0 t)) then Raise QhullError else Ok t.

Definition inside_simplex (t : affine) (p : point) : bool :=
  let '(c0, c1, c2) := weights_row t p in
  fle fzero c0 && fle fzero c1 && fle fzero c2.

Fixpoint first_containing (ts : list affine) (p : point) (i : Z) : Z :=
  match ts with
  | [] => outside_marker
  | t :: ts' =>
      if inside_simplex t p then i else first_containing ts' p (i + 1)%Z
  end.

Definition mesh_qhull (simp : list (triple Z)) : qhull :=
  {| qhull_Delaunay xy :=
       ts <- mapM (simplex_transform xy) simp ;;
       match ts with
       | [] => Raise QhullError
       | _ => Ok (mk_Delaunay xy simp ts (fun p => first_containing ts p 0%Z))
       end |}.

(* ================================================================= *)
(** ** Data of the worked examples *)

(** The triangle (0,0), (1,0), (0,1) carrying the field 1, 2, 3. *)
Definition triangle_xy : list point :=
  [(fl 0 1, fl 0 1); (fl 1 1, fl 0 1); (fl 0 1, fl 1 1)].

Definition triangle_field : list float := [fl 1 1; fl 2 1; fl 3 1].

Definition triangle_qhull : qhull := mesh_qhull [(0, 1, 2)%Z].

(** The unit square, cut along the diagonal from (1,0) to (0,1). *)
Definition square_xy : list point :=
  [(fl 0 1, fl 0 1); (fl 1 1, fl 0 1); (fl 0 1, fl 1 1); (fl 1 1, fl 1 1)].

Definition square_qhull : qhull := mesh_qhull [(0, 1, 2)%Z; (1, 3, 2)%Z].

(** The triangulations the stand-in builds for the two examples. *)
Definition triangle_transforms : list affine :=
  [mk_affine (fl (-1) 1, fl (-1) 1) (fl 1 1, fl 0 1) (fl 0 1, fl 1 1)].

Definition triangle_tri : Delaunay :=
  mk_Delaunay triangle_xy [(0, 1, 2)%Z] triangle_transforms
    (fun p => first_containing triangle_transforms p 0%Z).

Definition square_transforms : list affine :=
  [mk_affine (fl (-1) 1, fl (-1) 1) (fl 1 1, fl 0 1) (fl 0 1, fl 1 1);
   mk_affine (fl 0 1, fl (-1) 1) (fl 1 1, fl 1 1) (fl 0 1, fl 1 1)].

Definition square_tri : Delaunay :=
  mk_Delaunay square_xy [(0, 1, 2)%Z; (1, 3, 2)%Z] square_transforms
    (fun p => first_containing square_transforms p 0%Z).

(* ================================================================= *)
(** ** [find_nearest] *)

(** [abs] of a scalar. *)
Definition fabs (x : float) : float :=
  match x with
  | nan => nan
  | num q => num (Qcabs q)
  end.

(** [ndarray.argmin]: the scan keeps the first entry that is not-a-number,
    and otherwise moves to an entry only when it is not at or above the
    best one so far ([!(x >= best)]). *)
Fixpoint argmin_from (best : float) (bi i : nat) (l : list float) : nat :=
  match l with
  | [] => bi
  | x :: l' =>
      if is_nan best then bi
      else if negb (fge x best) then argmin_from x i (S i) l'
      else argmin_from best bi (S i) l'
  end.

Definition np_argmin (a : list float) : result nat :=
  match a with
  | [] => Raise ValueError
  | x :: a' => Ok (argmin_from x 0 1 a')
  end.

Definition find_nearest (array : list float) (value : float) : result nat :=
  np_argmin (map (fun a => fabs (a - value)%float) array).

(** The distance [find_nearest] minimises. *)
Definition distance (value a : float) : float := fabs (a - value)%float.

(* ================================================================= *)
(** ** Vocabulary of the further properties *)



(* ================================================================= *)
(** ** [load_fld]

    The function with [do_plot=False]: its input is the rows of numbers
    of the file (the four columns x, y, z and magE that the function
    reads), its result the three grids it returns.  [loadtxt] returns a
    one-dimensional array for a file of fewer than two rows, on which
    [data[:,0]] raises [IndexError].  Besides the exceptions of numpy the
    interpreter raises [UnboundLocalError] for a local name that was never
    assigned and [ZeroDivisionError] for an integer division by zero. *)

Inductive py_exn : Type :=
| NumpyError (e : exn)
| UnboundLocalError
| ZeroDivisionError.

Inductive py_result (A : Type) : Type :=
| Done (a : A)
| Fail (e : py_exn).

Arguments Done {A} a.
Arguments Fail {A} e.

Definition row4 : Type := (float * float * float * float)%type.

Definition col_x (r : row4) : float := fst (fst (fst r)).
Definition col_y (r : row4) : float := snd (fst (fst r)).
Definition col_z (r : row4) : float := snd (fst r).
Definition col_magE (r : row4) : float := snd r.

(** [c in s] for a one-character string [c]. *)
Fixpoint contains (c : Ascii.ascii) (s : string) : bool :=
  match s with
  | EmptyString => false
  | String d s' => Ascii.eqb d c || contains c s'
  end.

(** The loop [for idx, X in enumerate(x): if X != x[0]: ...; break]:
    the index at which it breaks, if it does. *)
Fixpoint first_change_from (x0 : float) (idx : nat) (x : list float)
  : option nat :=
  match x with
  | [] => None
  | X :: x' => if fne X x0 then Some idx else first_change_from x0 (S idx) x'
  end.

Definition first_change (x : list float) : option nat :=
  match x with
  | [] => None
  | x0 :: _ => first_change_from x0 0 x
  end.

(** [a.reshape((rows, cols))] of a one-dimensional array. *)
Fixpoint chunks {A} (rows cols : nat) (a : list A) : list (list A) :=
  match rows with
  | O => []
  | S r => firstn cols a :: chunks r cols (skipn cols a)
  end.

Definition np_reshape {A} (rows cols : nat) (a : list A)
  : result (list (list A)) :=
  if Nat.eqb (rows * cols) (length a) then Ok (chunks rows cols a)
  else Raise ValueError.

Definition reshape {A} (rows cols : nat) (a : list A)
  : py_result (list (list A)) :=
  match np_reshape rows cols a with
  | Ok g => Done g
  | Raise e => Fail (NumpyError e)
  end.

(** The sizes the loop assigns: nothing when it never breaks, otherwise
    [ysize = idx] and [xsize = shape(magE)[0] / ysize], the integer
    division of Python 2. *)
Definition fld_sizes (scan : list float) (n : nat)
  : py_result (option (nat * nat)) :=
  match first_change scan with
  | None => Done None
  | Some O => Fail ZeroDivisionError
  | Some ysize => Done (Some (Nat.div n ysize, ysize))
  end.

Definition load_fld (data : list row4) (plot_axes : string)
  : py_result (list (list float) * list (list float) * list (list float)) :=
  if Nat.ltb (length data) 2 then Fail (NumpyError IndexError) else
  let x := map col_x data in
  let y := map col_y data in
  let z := map col_z data in
  let magE := map col_magE data in
  let scan := if contains "x"%char plot_axes then x else y in
  match fld_sizes scan (length magE) with
  | Fail e => Fail e
  | Done None => Fail UnboundLocalError
  | Done (Some (xsize, ysize)) =>
      let grids :=
        if String.eqb plot_axes "xy" then Some (x, y)
        else if String.eqb plot_axes "xz" then Some (x, z)
        else if String.eqb plot_axes "yz" then Some (y, z)
        else None in
      match grids with
      | Some (gx, gy) =>
          match reshape xsize ysize gx with
          | Fail e => Fail e
          | Done X =>
              match reshape xsize ysize gy with
              | Fail e => Fail e
              | Done Y =>
                  match reshape xsize ysize magE with
                  | Fail e => Fail e
                  | Done E => Done (X, Y, E)
                  end
              end
          end
      | None =>
          match reshape xsize ysize magE with
          | Fail e => Fail e
          | Done E => Fail UnboundLocalError
          end
      end
  end.

(** The two columns a plane name selects for the grids. *)
Definition fld_columns (data : list row4) (plot_axes : string)
  : option (list float * list float) :=
  if String.eqb plot_axes "xy" then Some (map col_x data, map col_y data)
  else if String.eqb plot_axes "xz" then Some (map col_x data, map col_z data)
  else if String.eqb plot_axes "yz" then Some (map col_y data, map col_z data)
  else None.

(** The column the loop of [load_fld] scans. *)
Definition fld_scan (data : list row4) (plot_axes : string) : list float :=
  if contains "x"%char plot_axes then map col_x data else map col_y data.

(* ================================================================= *)
(** ** [prepare_for_interpolation], from its first statement

    [elements] is the integer array of the connectivity line, [nodes] the
    array of node coordinates (one row of three per node).  The module is
    Python 2 code: [/] on the shape is the integer division, and
    [numpy.delete] is the one of numpy before 1.19, which leaves out of
    account every position that is negative or beyond the array. *)

Definition node : Type := (float * float * float)%type.

(** [nodes[:, k]] for one row. *)
Definition coord (k : nat) (n : node) : float :=
  match k with
  | O => fst (fst n)
  | S O => snd (fst n)
  | _ => snd n
  end.

(** [numpy.diff]: [a[1:] - a[:-1]]. *)
Definition np_diff (a : list float) : list float :=
  zip_with fsub (tl a) a.

(** The order numpy sorts floats in: not-a-number goes last. *)
Definition flt_sort (a b : float) : bool :=
  flt a b || (is_nan b && negb (is_nan a)).

(** [numpy.unique(ar)]: the sorted array without repetitions. *)
Definition np_unique (ar : list float) : list float :=
  fst (np_unique_index flt_sort fne ar).

(** [len(unique(diff(nodes[:,k]))) == 1] *)
Definition constant_coordinate (nodes : list node) (k : nat) : bool :=
  Nat.eqb (length (np_unique (np_diff (map (coord k) nodes)))) 1.

(** [arange(0,3)[logical_not(constant_coordinate)]] *)
Definition plot_coords (nodes : list node) : list nat :=
  filter (fun k => negb (constant_coordinate nodes k)) [0; 1; 2]%nat.

(** [where(elements == 0)[0]] *)
Fixpoint where_zero_from (i : Z) (elements : list Z) : list Z :=
  match elements with
  | [] => []
  | e :: elements' =>
      if Z.eqb e 0%Z then i :: where_zero_from (i + 1)%Z elements'
      else where_zero_from (i + 1)%Z elements'
  end.

Definition where_zero (elements : list Z) : list Z :=
  where_zero_from 0%Z elements.

(** [numpy.delete(arr, obj)]: the entries whose position is not in [obj]. *)
Fixpoint delete_from (i : Z) (arr : list Z) (obj : list Z) : list Z :=
  match arr with
  | [] => []
  | e :: arr' =>
      if existsb (Z.eqb i) obj then delete_from (i + 1)%Z arr' obj
      else e :: delete_from (i + 1)%Z arr' obj
  end.

Definition np_delete (arr : list Z) (obj : list Z) : list Z :=
  delete_from 0%Z arr obj.

(** The filter of the marker sequence, up to the reshape. *)
Definition structured_elements (elements : list Z) : result (list (list Z)) :=
  let w := where_zero elements in
  let obj := w ++ map (fun i => i - 3)%Z w ++ map (fun i => i - 2)%Z w
               ++ map (fun i => i - 1)%Z w ++ map (fun i => i + 1)%Z w in
  let flat := skipn 2 (np_delete elements obj) in
  np_reshape (Nat.div (length flat) 6) 6 flat.

(** [nodes[structured_elements-1, c]] *)
Definition node_coordinates (nodes : list node) (rows : list (list Z))
    (c : nat) : result (list (list float)) :=
  mapM (mapM (fun e => n <- np_take1 nodes (e - 1)%Z ;; Ok (coord c n))) rows.

(** [plot_coords[i]] *)
Definition plot_coord (nodes : list node) (i : nat) : result nat :=
  match nth_error (plot_coords nodes) i with
  | Some c => Ok c
  | None => Raise IndexError
  end.

Definition prepare_for_interpolation (elements : list Z) (nodes : list node)
    (elem_solution : list float)
  : result (list float * list float * list float) :=
  rows <- structured_elements elements ;;
  c0 <- plot_coord nodes 0 ;;
  x <- node_coordinates nodes rows c0 ;;
  c1 <- plot_coord nodes 1 ;;
  y <- node_coordinates nodes rows c1 ;;
  prepare_for_interpolation_unique x y elem_solution.

(** A well-formed connectivity array: two leading entries, then for each
    element the markers 2, 3, 3, 0, 6 and its six node numbers. *)
Definition element_block (row : list Z) : list Z :=
  [2; 3; 3; 0; 6]%Z ++ row.

Definition connectivity (d0 d1 : Z) (rows : list (list Z)) : list Z :=
  d0 :: d1 :: concat (map element_block rows).

(** An entry survives the filter when there is no zero at its own
    position, at the three positions after it or at the position before
    it. *)
Definition zero_at (elements : list Z) (i : Z) : bool :=
  if (i <? 0)%Z then false
  else match nth_error elements (Z.to_nat i) with
       | Some e => Z.eqb e 0%Z
       | None => false
       end.

Definition survives (elements : list Z) (i : Z) : bool :=
  negb (zero_at elements i || zero_at elements (i + 3)%Z
        || zero_at elements (i + 2)%Z || zero_at elements (i + 1)%Z
        || zero_at elements (i - 1)%Z).

(** The same filter as a walk along the array: [prev0] tells whether the
    entry before is a zero, and the three entries ahead are looked up in
    the rest. *)
Definition is_zero_at (l : list Z) (k : nat) : bool :=
  match nth_error l k with
  | Some e => Z.eqb e 0%Z
  | None => false
  end.

Fixpoint walk (prev0 : bool) (l : list Z) : list Z :=
  match l with
  | [] => []
  | e :: t =>
      if Z.eqb e 0%Z || is_zero_at t 2 || is_zero_at t 1 || is_zero_at t 0
         || prev0
      then walk (Z.eqb e 0%Z) t
      else e :: walk (Z.eqb e 0%Z) t
  end.

(** The positions [structured_elements] hands to [numpy.delete]. *)
Definition marker_positions (elements : list Z) : list Z :=
  let w := where_zero elements in
  w ++ map (fun i => i - 3)%Z w ++ map (fun i => i - 2)%Z w
    ++ map (fun i => i - 1)%Z w ++ map (fun i => i + 1)%Z w.

(** A row of six node numbers, none of them zero. *)
Definition element_row (row : list Z) : Prop :=
  length row = 6%nat /\ Forall (fun e => e <> 0%Z) row.

(** The coordinate [c] of the node with number [e] (numbers start at 1). *)
Definition node_coordinate (nodes : list node) (c : nat) (e : Z) : float :=
  coord c (nth (Z.to_nat (e - 1)) nodes (nan, nan, nan)).

(** A node number of the mesh. *)
Definition node_number (nodes : list node) (e : Z) : Prop :=
  (1 <= e <= Z.of_nat (length nodes))%Z.

(* ################################################################# *)
(** * Properties *)

(* ================================================================= *)
(** ** Arithmetic of scalars *)

(** Equations between scalar expressions: split every scalar into its two
    cases; not-a-number absorbs on both sides, and numbers are settled in
    the field of rationals. *)
Ltac float_cases :=
  repeat match goal with
         | x : float |- _ => destruct x
         end.

Ltac float_ring :=
  intros; float_cases;
  cbv [fsum fold_left fadd fsub fmul lift2 fzero fone];
  try reflexivity; try discriminate;
  try (f_equal; ring).

Lemma fadd_comm (x y : float) : (x + y = y + x)%float.
Proof. float_ring. Qed.

Lemma fadd_assoc (x y z : float) : (x + (y + z) = x + y + z)%float.
Proof. float_ring. Qed.

Lemma fmul_comm (x y : float) : (x * y = y * x)%float.
Proof. float_ring. Qed.

Lemma fmul_add_distr_r (x y z : float) : ((x + y) * z = x * z + y * z)%float.
Proof. float_ring. Qed.

Lemma fadd_zero_l (x : float) : (fzero + x = x)%float.
Proof. float_ring. Qed.

Lemma fsum3 (a b c : float) : fsum [a; b; c] = (a + b + c)%float.
Proof. float_ring. Qed.

Lemma is_num_not_nan (x : float) : is_num x <-> is_nan x = false.
Proof.
  split.
  - intros [q ->]. reflexivity.
  - destruct x; [discriminate | intros _; now exists q].
Qed.

Lemma lift2_num (op : Qc -> Qc -> Qc) (x y : float) :
  is_num x -> is_num y -> is_num (lift2 op x y).
Proof. intros [p ->] [q ->]. now exists (op p q). Qed.

Lemma is_num_fone : is_num fone.
Proof. now exists (Q2Qc 1). Qed.

Lemma is_num_fzero : is_num fzero.
Proof. now exists (Q2Qc 0). Qed.

(** Equality of two rationals given by their fractions. *)
Lemma num_eq (p q : Qc) : (this p == this q)%Q -> num p = num q.
Proof. intros H. f_equal. now apply Qc_is_canon. Qed.

(* ================================================================= *)
(** ** The error monad and indexed access *)

Lemma bind_Ok_inv {A B} (r : result A) (k : A -> result B) (b : B) :
  (x <- r ;; k x) = Ok b -> exists a, r = Ok a /\ k a = Ok b.
Proof. destruct r as [a|e]; simpl; [eauto | discriminate]. Qed.

Lemma mapM_Ok_nth {A B} (f : A -> result B) (l : list A) (bs : list B) :
  mapM f l = Ok bs ->
  length bs = length l /\
  forall q a, nth_error l q = Some a ->
              exists b, f a = Ok b /\ nth_error bs q = Some b.
Proof.
  revert bs. induction l as [|a l IH]; simpl; intros bs H.
  - injection H as <-. split; [reflexivity|]. intros [|q] a'; discriminate.
  - apply bind_Ok_inv in H as (b & Hb & H).
    apply bind_Ok_inv in H as (bs' & Hbs & H). injection H as <-.
    destruct (IH _ Hbs) as [Hlen Hnth]. split; [simpl; congruence|].
    intros [|q] a' Hq; simpl in *.
    + injection Hq as <-. eauto.
    + eauto.
Qed.

Lemma mapM_total {A B} (f : A -> result B) (l : list A) :
  Forall (fun a => exists b, f a = Ok b) l -> exists bs, mapM f l = Ok bs.
Proof.
  induction 1 as [|a l [b Hb] _ [bs Hbs]]; simpl.
  - eauto.
  - rewrite Hb, Hbs. simpl. eauto.
Qed.

Lemma mapM_Raise {A B} (f : A -> result B) (l : list A) (e : exn) :
  mapM f l = Raise e -> Exists (fun a => f a = Raise e) l.
Proof.
  induction l as [|a l IH]; simpl; [discriminate|].
  destruct (f a) as [b|e'] eqn:Hfa; simpl.
  - destruct (mapM f l) as [bs|e'']; simpl; [discriminate|].
    intros H. right. apply IH. congruence.
  - intros H. left. congruence.
Qed.

Lemma mapM_ext {A B} (f g : A -> result B) (l : list A) :
  (forall a, In a l -> f a = g a) -> mapM f l = mapM g l.
Proof.
  induction l as [|a l IH]; simpl; intros H; [reflexivity|].
  rewrite (H a) by now left. rewrite IH by auto. reflexivity.
Qed.

Lemma mapM_map {A B C} (f : B -> result C) (g : A -> B) (l : list A) :
  mapM f (map g l) = mapM (fun a => f (g a)) l.
Proof.
  induction l as [|a l IH]; simpl; [reflexivity|]. now rewrite IH.
Qed.

Lemma in_boundsb_spec (n : nat) (i : Z) :
  in_boundsb n i = true <-> in_bounds n i.
Proof. unfold in_boundsb, in_bounds. lia. Qed.

Lemma wrap_index_lt (n : nat) (i : Z) :
  in_bounds n i -> (wrap_index n i < n)%nat.
Proof.
  unfold in_bounds, wrap_index. intros H.
  destruct (Z.ltb_spec i 0); lia.
Qed.

Lemma np_take1_Ok {A} (a : list A) (i : Z) :
  in_bounds (length a) i ->
  exists x, np_take1 a i = Ok x /\
            nth_error a (wrap_index (length a) i) = Some x.
Proof.
  intros H. unfold np_take1.
  rewrite (proj2 (in_boundsb_spec _ _) H).
  destruct (nth_error a (wrap_index (length a) i)) as [x|] eqn:E; [eauto|].
  apply nth_error_None in E. apply wrap_index_lt in H. lia.
Qed.

Lemma np_take1_Raise {A} (a : list A) (i : Z) :
  ~ in_bounds (length a) i -> np_take1 a i = Raise IndexError.
Proof.
  intros H. unfold np_take1.
  destruct (in_boundsb (length a) i) eqn:E; [|reflexivity].
  apply in_boundsb_spec in E. contradiction.
Qed.

Lemma np_take1_Ok_inv {A} (a : list A) (i : Z) (x : A) :
  np_take1 a i = Ok x ->
  in_bounds (length a) i /\ nth_error a (wrap_index (length a) i) = Some x.
Proof.
  unfold np_take1. destruct (in_boundsb (length a) i) eqn:E; [|discriminate].
  apply in_boundsb_spec in E.
  destruct (nth_error a _) eqn:E'; [|discriminate].
  intros [= <-]. auto.
Qed.

Lemma np_take1_error {A} (a : list A) (i : Z) (e : exn) :
  np_take1 a i = Raise e -> e = IndexError /\ ~ in_bounds (length a) i.
Proof.
  intros H. destruct (in_boundsb (length a) i) eqn:E.
  - apply in_boundsb_spec in E. destruct (np_take1_Ok a i E) as (x & Hx & _).
    congruence.
  - split.
    + unfold np_take1 in H. rewrite E in H. congruence.
    + intros Hb. apply in_boundsb_spec in Hb. congruence.
Qed.

Lemma np_take3_Ok {A} (a : list A) (i0 i1 i2 : Z) :
  triple_in_bounds (length a) (i0, i1, i2) ->
  exists x0 x1 x2,
    np_take1 a i0 = Ok x0 /\ np_take1 a i1 = Ok x1 /\ np_take1 a i2 = Ok x2 /\
    np_take3 a (i0, i1, i2) = Ok (x0, x1, x2).
Proof.
  intros (H0 & H1 & H2).
  destruct (np_take1_Ok a i0 H0) as (x0 & E0 & _).
  destruct (np_take1_Ok a i1 H1) as (x1 & E1 & _).
  destruct (np_take1_Ok a i2 H2) as (x2 & E2 & _).
  exists x0, x1, x2. unfold np_take3. rewrite E0, E1, E2. auto.
Qed.

Lemma np_take3_Ok_inv {A} (a : list A) (v : triple Z) (x : triple A) :
  np_take3 a v = Ok x ->
  triple_in_bounds (length a) v /\
  np_take1 a (fst (fst v)) = Ok (fst (fst x)) /\
  np_take1 a (snd (fst v)) = Ok (snd (fst x)) /\
  np_take1 a (snd v) = Ok (snd x).
Proof.
  destruct v as [[i0 i1] i2]. unfold np_take3. intros H.
  apply bind_Ok_inv in H as (x0 & E0 & H).
  apply bind_Ok_inv in H as (x1 & E1 & H).
  apply bind_Ok_inv in H as (x2 & E2 & H). injection H as <-. simpl.
  repeat split; auto;
    eapply np_take1_Ok_inv; eauto.
Qed.

Lemma np_take3_error {A} (a : list A) (v : triple Z) (e : exn) :
  np_take3 a v = Raise e ->
  e = IndexError /\ ~ triple_in_bounds (length a) v.
Proof.
  destruct v as [[i0 i1] i2]. unfold np_take3, triple_in_bounds.
  destruct (np_take1 a i0) eqn:E0; simpl;
    [|intros [= <-]; apply np_take1_error in E0; tauto].
  destruct (np_take1 a i1) eqn:E1; simpl;
    [|intros [= <-]; apply np_take1_error in E1; tauto].
  destruct (np_take1 a i2) eqn:E2; simpl;
    [discriminate|intros [= <-]; apply np_take1_error in E2; tauto].
Qed.

(* ================================================================= *)
(** ** [fast_interpolate]: the output formula *)

Lemma nth_error_combine {A B} (a : list A) (b : list B) q x y :
  nth_error a q = Some x -> nth_error b q = Some y ->
  nth_error (combine a b) q = Some (x, y).
Proof.
  revert b q. induction a as [|a0 a IH]; intros [|b0 b] [|q]; simpl;
    try discriminate.
  - now intros [= ->] [= ->].
  - apply IH.
Qed.

Lemma broadcast_same_length {A B} (a : list A) (b : list B) :
  length a = length b -> broadcast a b = Ok (combine a b).
Proof.
  intros H. unfold broadcast. now rewrite H, Nat.eqb_refl.
Qed.

Lemma np_take_triples_total (values : list float) (vertices : list (triple Z)) :
  Forall (triple_in_bounds (length values)) vertices ->
  exists taken, np_take_triples values vertices = Ok taken.
Proof.
  intros H. apply mapM_total. eapply Forall_impl; [|exact H].
  intros [[i0 i1] i2] Hv.
  destruct (np_take3_Ok values i0 i1 i2 Hv) as (x0 & x1 & x2 & _ & _ & _ & E). eauto.
Qed.

Lemma np_take_triples_Raise (values : list float) (vertices : list (triple Z)) :
  ~ Forall (triple_in_bounds (length values)) vertices ->
  np_take_triples values vertices = Raise IndexError.
Proof.
  intros H. destruct (np_take_triples values vertices) as [taken|e] eqn:E.
  - exfalso. apply H. apply Forall_forall. intros v Hv.
    apply In_nth_error in Hv as [q Hq].
    destruct (mapM_Ok_nth _ _ _ E) as [_ Hnth].
    destruct (Hnth _ _ Hq) as (x & Hx & _).
    now apply np_take3_Ok_inv in Hx.
  - apply mapM_Raise in E. apply Exists_exists in E as (v & _ & Hv).
    apply np_take3_error in Hv as [-> _]. reflexivity.
Qed.

(** With indices that are accepted and as many weight rows as index
    rows, the call goes through and pairs the rows up. *)
Lemma fast_interpolate_rows (values : list float)
    (vertices : list (triple Z)) (weights : list (triple float)) :
  length vertices = length weights ->
  Forall (triple_in_bounds (length values)) vertices ->
  exists taken,
    np_take_triples values vertices = Ok taken /\
    fast_interpolate values vertices weights
    = Ok (map (fun r => dot3 (fst r) (snd r)) (combine taken weights)).
Proof.
  intros Hlen Hb.
  destruct (np_take_triples_total values vertices Hb) as [taken Ht].
  destruct (mapM_Ok_nth _ _ _ Ht) as [Hlt _].
  exists taken. split; [exact Ht|].
  unfold fast_interpolate, einsum_nj_nj_n. rewrite Ht. simpl.
  rewrite broadcast_same_length by congruence. reflexivity.
Qed.

(** C2.  For a precomputed map of K index triples and K weight triples
    whose indices the field vector accepts, [fast_interpolate] returns
    exactly K values, and the value at every query index q is the sum over
    j = 0, 1, 2 of weights[q][j] * field[vertices[q][j]]. *)
Theorem fast_interpolate_weighted_sum :
  forall (values : list float) (vertices : list (triple Z))
         (weights : list (triple float)),
    length vertices = length weights ->
    Forall (triple_in_bounds (length values)) vertices ->
    exists out,
      fast_interpolate values vertices weights = Ok out /\
      length out = length vertices /\
      forall q i0 i1 i2 w0 w1 w2,
        nth_error vertices q = Some (i0, i1, i2) ->
        nth_error weights q = Some (w0, w1, w2) ->
        exists f0 f1 f2,
          np_take1 values i0 = Ok f0 /\
          np_take1 values i1 = Ok f1 /\
          np_take1 values i2 = Ok f2 /\
          nth_error out q = Some (fsum [w0 * f0; w1 * f1; w2 * f2])%float.
Proof.
  intros values vertices weights Hlen Hb.
  destruct (fast_interpolate_rows values vertices weights Hlen Hb)
    as (taken & Ht & Hout).
  destruct (mapM_Ok_nth _ _ _ Ht) as [Hlt Hnth].
  eexists. split; [exact Hout|]. split.
  - rewrite length_map, length_combine. lia.
  - intros q i0 i1 i2 w0 w1 w2 Hv Hw.
    destruct (Hnth _ _ Hv) as ([[f0 f1] f2] & Hf & Hq).
    apply np_take3_Ok_inv in Hf as (_ & E0 & E1 & E2). simpl in *.
    exists f0, f1, f2. repeat split; auto.
    rewrite nth_error_map, (nth_error_combine _ _ _ _ _ Hq Hw). simpl.
    f_equal. clear. float_ring.
Qed.

Lemma fast_interpolate_weighted_sum_witness :
  exists out,
    fast_interpolate [fl 1 1; fl 2 1; fl 3 1] [(0, 1, -1)%Z]
                     [(fl 1 2, fl 1 4, fl 1 4)] = Ok out /\
    length out = 1%nat.
Proof.
  destruct (fast_interpolate_weighted_sum
              [fl 1 1; fl 2 1; fl 3 1] [(0, 1, -1)%Z]
              [(fl 1 2, fl 1 4, fl 1 4)]) as (out & H & Hl & _).
  - reflexivity.
  - repeat constructor; simpl; lia.
  - exists out. split; [exact H | exact Hl].
Defined.

(** Running the code on rational data: evaluate, then compare the
    fractions. *)
Ltac run :=
  vm_compute;
  repeat (f_equal; try (apply Qc_is_canon; reflexivity)).

(* ================================================================= *)
(** ** [fast_interpolate]: what happens to a field of another length *)

(** C7, as the code has it.  [fast_interpolate] never looks at the length
    of the field vector by itself: for a map of K index triples and K
    weight triples it raises [IndexError] exactly when some stored index
    lies outside [-len(values), len(values)), and returns K values in
    every other case, whatever the number of source points was. *)
Theorem fast_interpolate_index_check :
  forall (values : list float) (vertices : list (triple Z))
         (weights : list (triple float)),
    length vertices = length weights ->
    (Forall (triple_in_bounds (length values)) vertices ->
     exists out, fast_interpolate values vertices weights = Ok out /\
                 length out = length vertices) /\
    (~ Forall (triple_in_bounds (length values)) vertices ->
     fast_interpolate values vertices weights = Raise IndexError).
Proof.
  intros values vertices weights Hlen. split.
  - intros Hb.
    destruct (fast_interpolate_rows values vertices weights Hlen Hb)
      as (taken & Ht & Hout).
    destruct (mapM_Ok_nth _ _ _ Ht) as [Hlt _].
    eexists. split; [exact Hout|].
    rewrite length_map, length_combine. lia.
  - intros Hb. unfold fast_interpolate.
    now rewrite (np_take_triples_Raise values vertices Hb).
Qed.

Lemma fast_interpolate_index_check_witness :
  (exists out,
      fast_interpolate (triangle_field ++ [fl 9 1]) [(0, 1, 2)%Z]
                       [(fl 1 2, fl 1 4, fl 1 4)] = Ok out /\
      length out = 1%nat) /\
  fast_interpolate [fl 1 1; fl 2 1] [(0, 1, 2)%Z]
                   [(fl 1 2, fl 1 4, fl 1 4)] = Raise IndexError.
Proof.
  split.
  - apply (fast_interpolate_index_check
             (triangle_field ++ [fl 9 1]) [(0, 1, 2)%Z]
             [(fl 1 2, fl 1 4, fl 1 4)]).
    + reflexivity.
    + repeat constructor; simpl; lia.
  - apply (fast_interpolate_index_check
             [fl 1 1; fl 2 1] [(0, 1, 2)%Z] [(fl 1 2, fl 1 4, fl 1 4)]).
    + reflexivity.
    + intros H. inversion H as [|v l Hv _]; subst.
      destruct Hv as (_ & _ & Hi).
      unfold in_bounds in Hi. simpl in Hi. lia.
Defined.

(** The map built for the three source points of the triangle and the
    query (1/4, 1/4). *)
Lemma triangle_map :
  @construct_vertices triangle_qhull triangle_xy [(fl 1 4, fl 1 4)]
  = Ok ([(0, 1, 2)%Z], [(fl 1 2, fl 1 4, fl 1 4)]).
Proof. run. Qed.

(** C7, as stated, fails: a field vector of four entries is evaluated
    against a map built from three source points, and a value comes out. *)
Lemma fast_interpolate_accepts_longer_field :
  ~ (forall (Q : qhull) (xy uv : list point) (values : list float)
            (vertices : list (triple Z)) (weights : list (triple float)),
        @construct_vertices Q xy uv = Ok (vertices, weights) ->
        length values <> length xy ->
        raises (fast_interpolate values vertices weights)).
Proof.
  intros H.
  destruct (H triangle_qhull triangle_xy [(fl 1 4, fl 1 4)]
              (triangle_field ++ [fl 9 1]) _ _ triangle_map) as [e He].
  - simpl. discriminate.
  - vm_compute in He. discriminate.
Qed.

(* ================================================================= *)
(** ** [fast_interpolate]: linearity in the field *)

Lemma zip_with_cons {A B C} (f : A -> B -> C) x a y b :
  zip_with f (x :: a) (y :: b) = f x y :: zip_with f a b.
Proof. reflexivity. Qed.

Lemma length_zip_with {A B C} (f : A -> B -> C) (a : list A) (b : list B) :
  length a = length b -> length (zip_with f a b) = length a.
Proof.
  intros H. unfold zip_with. rewrite length_map, length_combine. lia.
Qed.

Lemma nth_error_zip_with {A B C} (f : A -> B -> C) (a : list A) (b : list B) n :
  nth_error (zip_with f a b) n =
  match nth_error a n, nth_error b n with
  | Some x, Some y => Some (f x y)
  | _, _ => None
  end.
Proof.
  revert b n. induction a as [|x a IH]; intros [|y b] [|n];
    try reflexivity.
  - simpl. now destruct (nth_error a n).
  - rewrite zip_with_cons. simpl. apply IH.
Qed.









(* ================================================================= *)
(** ** [construct_vertices]: what is stored for each query point *)

Lemma np_take_rows {A} (a : list A) (idx : list Z) :
  Forall (in_bounds (length a)) idx ->
  exists rows,
    np_take a idx = Ok rows /\ length rows = length idx /\
    forall q i, nth_error idx q = Some i ->
      exists x, nth_error a (wrap_index (length a) i) = Some x /\
                nth_error rows q = Some x.
Proof.
  intros H. unfold np_take.
  destruct (mapM_total (np_take1 a) idx) as [rows Hrows].
  { eapply Forall_impl; [|exact H]. intros i Hi.
    destruct (np_take1_Ok a i Hi) as (x & Hx & _). eauto. }
  exists rows. split; [exact Hrows|].
  destruct (mapM_Ok_nth _ _ _ Hrows) as [Hl Hnth]. split; [exact Hl|].
  intros q i Hq. destruct (Hnth _ _ Hq) as (x & Hx & Hr).
  apply np_take1_Ok_inv in Hx as [_ Hx]. eauto.
Qed.

(** The map is built whenever the locator's answers are indices the
    arrays accept, and row [q] holds the simplex and the weights the
    answer for [uv[q]] selects. *)
Lemma construct_vertices_rows (Q : qhull) (xy uv : list point)
    (tri : Delaunay) :
  qhull_Delaunay xy = Ok tri ->
  well_formed tri ->
  answers_in_bounds tri uv ->
  exists vertices weights,
    construct_vertices xy uv = Ok (vertices, weights) /\
    length vertices = length uv /\ length weights = length uv /\
    forall q p, nth_error uv q = Some p ->
      let k := wrap_index (length (simplices tri)) (find_simplex1 tri p) in
      exists s t,
        nth_error (simplices tri) k = Some s /\
        nth_error (transform tri) k = Some t /\
        nth_error vertices q = Some s /\
        nth_error weights q = Some (weights_row t p).
Proof.
  intros HD Hwf Hans. unfold well_formed in Hwf.
  assert (Hidx : Forall (in_bounds (length (simplices tri)))
                        (find_simplex tri uv)).
  { unfold find_simplex. apply Forall_map. exact Hans. }
  destruct (np_take_rows (simplices tri) _ Hidx) as (vs & Hvs & Hlv & Hv).
  assert (Hidx' : Forall (in_bounds (length (transform tri)))
                         (find_simplex tri uv)) by now rewrite Hwf.
  destruct (np_take_rows (transform tri) _ Hidx') as (temp & Ht & Hlt & Htq).
  unfold construct_vertices. rewrite HD. simpl. rewrite Hvs. simpl.
  rewrite Ht. simpl.
  unfold find_simplex in *. rewrite length_map in Hlv, Hlt.
  eexists _, _. split; [reflexivity|]. split; [exact Hlv|]. split.
  - rewrite length_map, length_zip_with; rewrite ?length_map; try lia.
    rewrite length_zip_with; rewrite ?length_map; lia.
  - intros q p Hq.
    assert (Hfq : nth_error (map (find_simplex1 tri) uv) q
                  = Some (find_simplex1 tri p)).
    { now apply map_nth_error. }
    destruct (Hv _ _ Hfq) as (s & Hs & Hsq).
    destruct (Htq _ _ Hfq) as (t & Htk & Htq').
    rewrite Hwf in Htk.
    exists s, t. repeat split; auto.
    rewrite nth_error_map, nth_error_zip_with, nth_error_map, Htq'.
    rewrite nth_error_zip_with, Hq, nth_error_map, Htq'. reflexivity.
Qed.

Lemma wrap_index_located (tri : Delaunay) (p : point) :
  located tri p ->
  wrap_index (length (simplices tri)) (find_simplex1 tri p)
  = Z.to_nat (find_simplex1 tri p).
Proof.
  unfold located, wrap_index. intros H.
  destruct (Z.ltb_spec (find_simplex1 tri p) 0); [lia | reflexivity].
Qed.


Lemma weights_row_barycentric (t : affine) (p : point) :
  weights_row t p = barycentric_weights t p.
Proof.
  destruct t as [[m00 m01] [m10 m11] [tx ty]], p as [px py].
  unfold weights_row, barycentric_weights, hstack_row, matvec2, psub.
  simpl. f_equal. float_ring.
Qed.


(** Hypotheses on concrete data, entry by entry. *)
Ltac index_ok := apply in_boundsb_spec; vm_compute; reflexivity.
Ltac number := repeat split; eexists; reflexivity.
Ltac each tac := repeat (first [apply Forall_nil | apply Forall_cons]); try tac.

Lemma triangle_delaunay :
  @qhull_Delaunay triangle_qhull triangle_xy = Ok triangle_tri.
Proof.
  assert (H : mapM (simplex_transform triangle_xy) [(0, 1, 2)%Z]
              = Ok triangle_transforms) by run.
  unfold triangle_qhull, mesh_qhull, qhull_Delaunay. rewrite H. reflexivity.
Qed.

Lemma square_delaunay :
  @qhull_Delaunay square_qhull square_xy = Ok square_tri.
Proof.
  assert (H : mapM (simplex_transform square_xy) [(0, 1, 2)%Z; (1, 3, 2)%Z]
              = Ok square_transforms) by run.
  unfold square_qhull, mesh_qhull, qhull_Delaunay. rewrite H. reflexivity.
Qed.

(** C3.  For every located query point, the weight triple stored by
    [construct_vertices] is computed from the transform of the simplex
    the locator names as: delta = query minus the translation,
    (w0, w1) = matrix times delta, w2 = 1 - w0 - w1; nothing is clamped. *)
Theorem construct_vertices_barycentric_weights :
  forall (Q : qhull) (xy uv : list point) (tri : Delaunay),
    qhull_Delaunay xy = Ok tri ->
    well_formed tri ->
    answers_in_bounds tri uv ->
    exists vertices weights,
      construct_vertices xy uv = Ok (vertices, weights) /\
      forall q p,
        nth_error uv q = Some p ->
        located tri p ->
        exists t,
          nth_error (transform tri) (Z.to_nat (find_simplex1 tri p)) = Some t /\
          nth_error weights q = Some (barycentric_weights t p).
Proof.
  intros Q xy uv tri HD Hwf Hans.
  destruct (construct_vertices_rows Q xy uv tri HD Hwf Hans)
    as (vertices & weights & Hcv & _ & _ & Hrows).
  exists vertices, weights. split; [exact Hcv|].
  intros q p Hq Hloc.
  destruct (Hrows q p Hq) as (s & t & _ & Ht & _ & Hw).
  rewrite (wrap_index_located tri p Hloc) in Ht.
  exists t. split; [exact Ht|].
  now rewrite <- weights_row_barycentric.
Qed.

Lemma construct_vertices_barycentric_weights_witness :
  exists vertices weights,
    @construct_vertices square_qhull square_xy
       [(fl 1 4, fl 1 4); (fl 3 4, fl 3 4)] = Ok (vertices, weights).
Proof.
  destruct (construct_vertices_barycentric_weights
              square_qhull square_xy [(fl 1 4, fl 1 4); (fl 3 4, fl 3 4)]
              square_tri square_delaunay)
    as (vertices & weights & H & _).
  - reflexivity.
  - each index_ok.
  - exists vertices, weights. exact H.
Defined.

(** The scenario of the design document: the query (1/4, 1/4) in the
    triangle with the field 1, 2, 3 is interpolated to 7/4. *)
Lemma fast_path_inside_triangle :
  located triangle_tri (fl 1 4, fl 1 4) /\
  @fast_path triangle_qhull triangle_xy [(fl 1 4, fl 1 4)] triangle_field
  = Ok [fl 7 4].
Proof.
  split; [vm_compute; split; [discriminate | reflexivity] | run].
Qed.

(** The weights are stored as computed: for the query (5, 5), which the
    locator does not find, they are -9, 5 and 5. *)
Lemma construct_vertices_does_not_clamp :
  @construct_vertices triangle_qhull triangle_xy [(fl 5 1, fl 5 1)]
  = Ok ([(0, 1, 2)%Z], [(fl (-9) 1, fl 5 1, fl 5 1)]).
Proof. run. Qed.



(* ================================================================= *)
(** ** The fast path outside the convex hull *)

Lemma Forall_nth_error {A} (P : A -> Prop) (l : list A) :
  (forall q x, nth_error l q = Some x -> P x) -> Forall P l.
Proof.
  intros H. apply Forall_forall. intros x Hx.
  apply In_nth_error in Hx as [q Hq]. eauto.
Qed.

Lemma nth_error_defined {A} (l : list A) (q : nat) :
  (q < length l)%nat -> exists x, nth_error l q = Some x.
Proof.
  intros H. destruct (nth_error l q) eqn:E; [eauto|].
  apply nth_error_None in E. lia.
Qed.





(** The square: the query (-5, 5) lies outside, and is given the second
    (last) simplex with the weights -4, -1 and 6; the field 1, 2, 3, 4
    is extrapolated to 2 * -4 + 4 * -1 + 3 * 6 = 6. *)
Lemma square_outside_point :
  outside_hull square_tri (fl (-5) 1, fl 5 1) /\
  @construct_vertices square_qhull square_xy
     [(fl 1 4, fl 1 4); (fl (-5) 1, fl 5 1)]
  = Ok ([(0, 1, 2)%Z; (1, 3, 2)%Z],
        [(fl 1 2, fl 1 4, fl 1 4); (fl (-4) 1, fl (-1) 1, fl 6 1)]) /\
  @fast_path square_qhull square_xy
     [(fl 1 4, fl 1 4); (fl (-5) 1, fl 5 1)]
     [fl 1 1; fl 2 1; fl 3 1; fl 4 1]
  = Ok [fl 7 4; fl 6 1].
Proof.
  split; [vm_compute; reflexivity|]. split; run.
Qed.

(** C1 at the scenario of the design document: source points (0,0), (1,0),
    (0,1) with the field 1, 2, 3 and the query (5, 5).  The locator marks
    the query as outside, and the fast path returns 16, which is a number:
    the marker -1 is read as the index of the last simplex. *)
Lemma fast_path_outside_hull_returns_a_number :
  outside_hull triangle_tri (fl 5 1, fl 5 1) /\
  @qhull_Delaunay triangle_qhull triangle_xy = Ok triangle_tri /\
  @fast_path triangle_qhull triangle_xy [(fl 5 1, fl 5 1)] triangle_field
  = Ok [fl 16 1] /\
  is_nan (fl 16 1) = false.
Proof.
  split; [vm_compute; reflexivity|].
  split; [exact triangle_delaunay|].
  split; [run | reflexivity].
Qed.

(* ================================================================= *)
(** ** Comparisons, [np.min] and [np.max] *)

Lemma fle_num (p q : Qc) : fle (num p) (num q) = true <-> (p <= q)%Qc.
Proof.
  unfold fle, cmp_num. rewrite Qcle_alt.
  destruct (p ?= q)%Qc; split; congruence.
Qed.

Lemma flt_num (p q : Qc) : flt (num p) (num q) = true <-> (p < q)%Qc.
Proof.
  unfold flt, cmp_num. rewrite Qclt_alt.
  destruct (p ?= q)%Qc; split; congruence.
Qed.

Lemma feq_num (p q : Qc) : feq (num p) (num q) = true <-> p = q.
Proof.
  unfold feq, cmp_num. rewrite Qceq_alt.
  destruct (p ?= q)%Qc; split; congruence.
Qed.

Lemma flt_false_num (p q : Qc) : flt (num p) (num q) = false <-> (q <= p)%Qc.
Proof.
  split; intros H.
  - apply Qcnot_lt_le. intros Hlt. apply flt_num in Hlt. congruence.
  - destruct (flt (num p) (num q)) eqn:E; [|reflexivity].
    apply flt_num in E. exfalso. eapply Qcle_not_lt; eauto.
Qed.

(** On an array of numbers [np.min] is an entry below all entries. *)
Lemma fold_fmin_least (a : list float) (x : float) :
  is_num x -> Forall is_num a ->
  exists m, fold_left fmin a x = num m /\
            In (num m) (x :: a) /\
            Forall (fun y => fle (num m) y = true) (x :: a).
Proof.
  intros Hx Ha. revert x Hx.
  induction Ha as [|y a [q ->] Ha IH]; intros x [p ->]; cbn [fold_left].
  - exists p. repeat split; [now left|]. constructor; [|constructor].
    apply fle_num. apply Qcle_refl.
  - change (fmin (num p) (num q))
      with (if flt (num q) (num p) then num q else num p).
    destruct (flt (num q) (num p)) eqn:E.
    + destruct (IH (num q)) as (m & Hm & Hin & Hall); [now exists q|].
      exists m. split; [exact Hm|]. split.
      * simpl in Hin. simpl. tauto.
      * inversion Hall as [|? ? Hmq Hrest]; subst.
        constructor; [|constructor; assumption].
        apply fle_num. apply fle_num in Hmq. apply flt_num in E.
        eapply Qcle_trans; [exact Hmq|]. now apply Qclt_le_weak.
    + destruct (IH (num p)) as (m & Hm & Hin & Hall); [now exists p|].
      exists m. split; [exact Hm|]. split.
      * simpl in Hin. simpl. tauto.
      * inversion Hall as [|? ? Hmp Hrest]; subst.
        constructor; [assumption|]. constructor; [|assumption].
        apply fle_num. apply fle_num in Hmp. apply flt_false_num in E.
        eapply Qcle_trans; eauto.
Qed.

Lemma np_min_least (a : list float) :
  a <> [] -> Forall is_num a ->
  exists m, np_min a = Ok (num m) /\ In (num m) a /\
            Forall (fun y => fle (num m) y = true) a.
Proof.
  destruct a as [|x a]; [congruence|]. intros _ H.
  inversion H as [|? ? Hx Ha]; subst.
  destruct (fold_fmin_least a x Hx Ha) as (m & Hm & Hin & Hall).
  exists m. simpl. rewrite Hm. auto.
Qed.

(** On an array of numbers [np.max] is an entry above all entries. *)
Lemma fold_fmax_greatest (a : list float) (x : float) :
  is_num x -> Forall is_num a ->
  exists m, fold_left fmax a x = num m /\
            In (num m) (x :: a) /\
            Forall (fun y => fle y (num m) = true) (x :: a).
Proof.
  intros Hx Ha. revert x Hx.
  induction Ha as [|y a [q ->] Ha IH]; intros x [p ->]; cbn [fold_left].
  - exists p. repeat split; [now left|]. constructor; [|constructor].
    apply fle_num. apply Qcle_refl.
  - change (fmax (num p) (num q))
      with (if flt (num p) (num q) then num q else num p).
    destruct (flt (num p) (num q)) eqn:E.
    + destruct (IH (num q)) as (m & Hm & Hin & Hall); [now exists q|].
      exists m. split; [exact Hm|]. split.
      * simpl in Hin. simpl. tauto.
      * inversion Hall as [|? ? Hmq Hrest]; subst.
        constructor; [|constructor; assumption].
        apply fle_num. apply fle_num in Hmq. apply flt_num in E.
        eapply Qcle_trans; [|exact Hmq]. now apply Qclt_le_weak.
    + destruct (IH (num p)) as (m & Hm & Hin & Hall); [now exists p|].
      exists m. split; [exact Hm|]. split.
      * simpl in Hin. simpl. tauto.
      * inversion Hall as [|? ? Hmp Hrest]; subst.
        constructor; [assumption|]. constructor; [|assumption].
        apply fle_num. apply fle_num in Hmp. apply flt_false_num in E.
        eapply Qcle_trans; eauto.
Qed.

Lemma np_max_greatest (a : list float) :
  a <> [] -> Forall is_num a ->
  exists m, np_max a = Ok (num m) /\ In (num m) a /\
            Forall (fun y => fle y (num m) = true) a.
Proof.
  destruct a as [|x a]; [congruence|]. intros _ H.
  inversion H as [|? ? Hx Ha]; subst.
  destruct (fold_fmax_greatest a x Hx Ha) as (m & Hm & Hin & Hall).
  exists m. simpl. rewrite Hm. auto.
Qed.

(* ================================================================= *)
(** ** [interpolate_BC] *)

(** The test of one axis: it is evaluated without error on a non-empty
    array and holds exactly when the coordinate is in the range. *)
Lemma axis_test (v : float) (data : list float) :
  data <> [] ->
  exists b,
    py_and (lo <- np_min data ;; Ok (fge v lo))
           (hi <- np_max data ;; Ok (fle v hi)) = Ok b /\
    (b = true <-> in_range v data).
Proof.
  destruct data as [|x data]; [congruence|]. intros _.
  unfold in_range. simpl. unfold fge.
  set (lo := fold_left fmin data x). set (hi := fold_left fmax data x).
  exists (fle lo v && fle v hi). split.
  - destruct (fle lo v); reflexivity.
  - rewrite andb_true_iff. split.
    + intros [H1 H2]. exists lo, hi. auto.
    + intros (lo' & hi' & [= <-] & [= <-] & H1 & H2). auto.
Qed.

Lemma in_range_dec (v : float) (data : list float) :
  data <> [] -> in_range v data \/ ~ in_range v data.
Proof.
  intros H. destruct (axis_test v data H) as ([|] & _ & Hb).
  - left. now apply Hb.
  - right. intros Hr. apply Hb in Hr. discriminate.
Qed.

(** C6.  For non-empty source arrays and a single query point:
    when [xeval] is outside the range from [np.min(xdata)] to
    [np.max(xdata)], or [yeval] outside that of [ydata], the function
    returns not-a-number itself and [griddata] is not called; otherwise
    it returns the call of [griddata] on the zipped source points, the
    values, the query point and the selected method. *)
Theorem interpolate_BC_bounding_box :
  forall (xdata ydata Udata : list float) (xeval yeval : float)
         (method : option string),
    xdata <> [] ->
    ydata <> [] ->
    (~ in_range xeval xdata \/ ~ in_range yeval ydata ->
     interpolate_BC xdata ydata Udata xeval yeval method = Ok (Return nan))
    /\
    (~ (~ in_range xeval xdata \/ ~ in_range yeval ydata) ->
     interpolate_BC xdata ydata Udata xeval yeval method
     = Ok (Delegate (Griddata (combine xdata ydata) Udata (xeval, yeval)
                              (match method with
                               | Some m => m
                               | None => default_method
                               end)))).
Proof.
  intros xdata ydata Udata xeval yeval method Hx Hy.
  destruct (axis_test xeval xdata Hx) as (bx & Ex & Hbx).
  destruct (axis_test yeval ydata Hy) as (By & Ey & Hby).
  unfold interpolate_BC. rewrite Ex. simpl.
  destruct bx; [rewrite Ey; simpl; destruct By|]; split; intros H;
    try reflexivity.
  - exfalso. destruct H as [H | H]; apply H; [apply Hbx | apply Hby];
      reflexivity.
  - exfalso. apply H. right. intros Hr. apply Hby in Hr. discriminate.
  - exfalso. apply H. left. intros Hr. apply Hbx in Hr. discriminate.
Qed.

Lemma interpolate_BC_bounding_box_witness :
  interpolate_BC [fl 0 1; fl 1 1; fl 0 1] [fl 0 1; fl 0 1; fl 1 1]
                 triangle_field (fl 5 1) (fl 1 2) None
  = Ok (Return nan).
Proof.
  apply (interpolate_BC_bounding_box
           [fl 0 1; fl 1 1; fl 0 1] [fl 0 1; fl 0 1; fl 1 1]
           triangle_field (fl 5 1) (fl 1 2) None).
  - discriminate.
  - discriminate.
  - left. intros (lo & hi & Hlo & Hhi & _ & H).
    vm_compute in Hhi. injection Hhi as <-. vm_compute in H. discriminate.
Defined.

(** Inside the bounding box the call is handed over, also for a point
    outside the hull: (3/4, 3/4) is not in the triangle. *)
Lemma interpolate_BC_inside_box :
  interpolate_BC [fl 0 1; fl 1 1; fl 0 1] [fl 0 1; fl 0 1; fl 1 1]
                 triangle_field (fl 3 4) (fl 3 4) (Some "linear"%string)
  = Ok (Delegate (Griddata triangle_xy triangle_field (fl 3 4, fl 3 4)
                           "linear")).
Proof. vm_compute. reflexivity. Qed.

(** An empty source array is refused by [np.min]. *)
Lemma interpolate_BC_empty :
  interpolate_BC [] [] [] (fl 0 1) (fl 0 1) None = Raise ValueError.
Proof. reflexivity. Qed.

(* ================================================================= *)
(** ** [numpy.unique]: the stable sort

    The facts hold for the keys on which the order is a strict total
    order and [!=] is disequality; [good] marks them (for the complex keys
    of the module: those without a not-a-number part). *)

Section UniqueFacts.
Context {K : Type}.
Variables (ltb neb : K -> K -> bool) (good : K -> Prop).
Hypothesis ltb_irrefl : forall a, good a -> ltb a a = false.
Hypothesis ltb_trans : forall a b c, good a -> good b -> good c ->
  ltb a b = true -> ltb b c = true -> ltb a c = true.
Hypothesis ltb_connex : forall a b, good a -> good b ->
  ltb a b = false -> ltb b a = false -> a = b.
Hypothesis neb_spec : forall a b, good a -> good b ->
  (neb a b = false <-> a = b).

Local Notation "'elt'" := (entry_lt ltb).
Local Notation "'good_entries'" :=
  (Forall (fun q : K * nat => good (fst q))).

Lemma entry_lt_trans (p q r : K * nat) :
  good (fst p) -> good (fst q) -> good (fst r) ->
  elt p q -> elt q r -> elt p r.
Proof.
  intros Gp Gq Gr [H1 | [E1 I1]] [H2 | [E2 I2]].
  - left. eauto.
  - left. now rewrite <- E2.
  - left. now rewrite E1.
  - right. split; [congruence | lia].
Qed.

Lemma In_insert_stable (p q : K * nat) (s : list (K * nat)) :
  In q (insert_stable ltb p s) <-> q = p \/ In q s.
Proof.
  induction s as [|q0 s IH]; simpl.
  - intuition auto.
  - destruct (ltb (fst q0) (fst p)); simpl; rewrite ?IH; intuition auto.
Qed.

Lemma length_insert_stable (p : K * nat) (s : list (K * nat)) :
  length (insert_stable ltb p s) = S (length s).
Proof.
  induction s as [|q0 s IH]; simpl; [reflexivity|].
  destruct (ltb (fst q0) (fst p)); simpl; congruence.
Qed.

(** Inserting an entry that comes before every entry of its own key
    keeps the array sorted. *)
Lemma insert_stable_sorted (p : K * nat) (s : list (K * nat)) :
  good (fst p) -> good_entries s ->
  StronglySorted elt s ->
  (forall q, In q s -> fst q = fst p -> (snd p < snd q)%nat) ->
  StronglySorted elt (insert_stable ltb p s).
Proof.
  intros Gp Gs Hs Hidx. induction s as [|q0 s IH]; simpl.
  - repeat constructor.
  - inversion Hs as [|? ? Hs' Hq0]; subst.
    inversion Gs as [|? ? Gq0 Gs']; subst.
    destruct (ltb (fst q0) (fst p)) eqn:E.
    + constructor.
      * apply IH; auto. intros q Hq. apply Hidx. now right.
      * apply Forall_forall. intros r Hr.
        apply In_insert_stable in Hr as [-> | Hr].
        -- now left.
        -- rewrite Forall_forall in Hq0. now apply Hq0.
    + assert (Hpq0 : elt p q0).
      { destruct (ltb (fst p) (fst q0)) eqn:E'; [now left|].
        right. assert (fst p = fst q0) by now apply ltb_connex.
        split; [assumption|]. apply Hidx; [now left | congruence]. }
      constructor; [assumption|]. constructor; [assumption|].
      rewrite Forall_forall in *. intros r Hr.
      apply entry_lt_trans with q0; auto.
Qed.

Lemma enumerate_from_cons (n : nat) (k : K) (ar : list K) :
  enumerate_from n (k :: ar) = (k, n) :: enumerate_from (S n) ar.
Proof. reflexivity. Qed.

(** The sorted array holds exactly the entries [(ar[i], i)], in the
    order of [entry_lt]. *)
Lemma argsort_from (n : nat) (ar : list K) :
  Forall good ar ->
  let s := fold_right (insert_stable ltb) [] (enumerate_from n ar) in
  StronglySorted elt s /\
  (forall k i, In (k, i) s <->
               (n <= i)%nat /\ nth_error ar (i - n) = Some k).
Proof.
  intros Har. revert n.
  induction Har as [|k ar Gk Har IH]; intros n; cbv zeta.
  - simpl. split; [constructor|]. intros k i. split; [contradiction|].
    intros [_ H]. destruct (i - n)%nat; discriminate.
  - rewrite enumerate_from_cons. cbn [fold_right].
    destruct (IH (S n)) as [Hs Hin].
    assert (Hmem : forall k' i,
               In (k', i) (insert_stable ltb (k, n)
                  (fold_right (insert_stable ltb) []
                              (enumerate_from (S n) ar))) <->
               (n <= i)%nat /\ nth_error (k :: ar) (i - n) = Some k').
    { intros k' i. rewrite In_insert_stable, Hin. split.
      - intros [[= -> ->] | [Hle Hnth]].
        + split; [lia|]. now rewrite Nat.sub_diag.
        + split; [lia|].
          replace (i - n)%nat with (S (i - S n)) by lia. exact Hnth.
      - intros [Hle Hnth].
        destruct (Nat.eq_dec i n) as [-> | Hne].
        + left. rewrite Nat.sub_diag in Hnth. simpl in Hnth. congruence.
        + right. split; [lia|].
          replace (i - n)%nat with (S (i - S n)) in Hnth by lia.
          exact Hnth. }
    split; [|exact Hmem].
    apply insert_stable_sorted; auto.
    + apply Forall_forall. intros [k' i] Hq. apply Hin in Hq as [_ Hq].
      simpl. rewrite Forall_forall in Har. apply Har.
      eapply nth_error_In; eauto.
    + intros [k' i] Hq _. apply Hin in Hq as [Hle _]. simpl. lia.
Qed.

Lemma argsort_spec (ar : list K) :
  Forall good ar ->
  StronglySorted elt (argsort ltb ar) /\
  good_entries (argsort ltb ar) /\
  (forall k i, In (k, i) (argsort ltb ar) <-> nth_error ar i = Some k).
Proof.
  intros Har. destruct (argsort_from 0 ar Har) as [Hs Hin].
  unfold argsort. split; [exact Hs|].
  assert (Hmem : forall k i,
             In (k, i) (fold_right (insert_stable ltb) []
                                   (enumerate_from 0 ar))
             <-> nth_error ar i = Some k).
  { intros k i. rewrite Hin, Nat.sub_0_r. intuition lia. }
  split; [|exact Hmem].
  apply Forall_forall. intros [k i] Hq. apply Hmem in Hq. simpl.
  rewrite Forall_forall in Har. apply Har. eapply nth_error_In; eauto.
Qed.

(** The flagged entries of a sorted array whose keys are all at or
    after [k0]: their keys increase strictly from [k0] on, each is the
    entry of least position for its key, and every key other than [k0]
    has one. *)
Lemma flagged_after (k0 : K) (s : list (K * nat)) :
  good k0 -> good_entries s ->
  StronglySorted elt s ->
  Forall (fun q => ltb k0 (fst q) = true \/ k0 = fst q) s ->
  let r := flagged neb (Some k0) s in
  StronglySorted (key_lt ltb) (map fst r) /\
  Forall (fun q => ltb k0 (fst q) = true) r /\
  (forall q, In q r ->
     In q s /\ forall j, In (fst q, j) s -> (snd q <= j)%nat) /\
  (forall q, In q s -> fst q <> k0 -> exists i, In (fst q, i) r).
Proof.
  intros Gk0 Gs Hs. revert k0 Gk0.
  induction Hs as [|p s Hs IH Hp]; intros k0 Gk0 Hk0; cbv zeta.
  - simpl. repeat split; try constructor; try contradiction.
  - inversion Gs as [|? ? Gp Gs']; subst.
    inversion Hk0 as [|? ? Hk0p Hk0s]; subst.
    assert (Hnext : Forall (fun q => ltb (fst p) (fst q) = true
                                     \/ fst p = fst q) s).
    { eapply Forall_impl; [|exact Hp]. intros q [H | [H _]]; auto. }
    destruct (IH Gs' (fst p) Gp Hnext) as (Hsorted & Hafter & Hleast & Hall).
    rewrite Forall_forall in Gs', Hafter, Hp.
    cbn [flagged]. destruct (neb (fst p) k0) eqn:E.
    + assert (Hlt : ltb k0 (fst p) = true).
      { destruct Hk0p as [H | H]; [exact H|].
        assert (neb (fst p) k0 = false) by (apply neb_spec; auto).
        congruence. }
      split; [|split; [|split]].
      * cbn [map]. constructor; [exact Hsorted|].
        apply Forall_forall. intros k Hk.
        apply in_map_iff in Hk as (q & <- & Hq). now apply Hafter.
      * constructor; [exact Hlt|]. apply Forall_forall. intros q Hq.
        apply ltb_trans with (fst p); auto.
        apply Gs'. now apply Hleast.
      * intros q [<- | Hq].
        -- split; [now left|]. intros j [Hj | Hj].
           ++ apply (f_equal snd) in Hj. simpl in Hj. lia.
           ++ destruct (Hp _ Hj) as [H | [_ H]]; simpl in *; [|lia].
              rewrite ltb_irrefl in H by assumption. discriminate.
        -- destruct (Hleast q Hq) as [Hqs Hmin].
           split; [now right|]. intros j [Hj | Hj]; [|now apply Hmin].
           specialize (Hafter q Hq). rewrite Hj in Hafter. simpl in Hafter.
           rewrite ltb_irrefl in Hafter; [discriminate|].
           apply Gs'. exact Hqs.
      * intros q [<- | Hq] Hne.
        -- exists (snd p). left. now destruct p.
        -- destruct (neb (fst q) (fst p)) eqn:E'.
           ++ destruct (Hall q Hq) as [i Hi].
              { intros H. apply neb_spec in H; auto. congruence. }
              exists i. now right.
           ++ apply neb_spec in E'; auto.
              exists (snd p). left. rewrite E'. now destruct p.
    + assert (Heq : fst p = k0) by (apply neb_spec; auto).
      rewrite Heq in *.
      split; [exact Hsorted|]. split; [apply Forall_forall; exact Hafter|].
      split.
      * intros q Hq. destruct (Hleast q Hq) as [Hqs Hmin].
        split; [now right|]. intros j [Hj | Hj]; [|now apply Hmin].
        specialize (Hafter q Hq).
        assert (fst q = k0) by (rewrite <- Heq, Hj; reflexivity).
        rewrite H in Hafter.
        rewrite ltb_irrefl in Hafter by assumption. discriminate.
      * intros q [<- | Hq] Hne; [congruence|]. now apply Hall.
Qed.

(** The same for the whole sorted array. *)
Lemma flagged_first (s : list (K * nat)) :
  good_entries s ->
  StronglySorted elt s ->
  let r := flagged neb None s in
  StronglySorted (key_lt ltb) (map fst r) /\
  (forall q, In q r ->
     In q s /\ forall j, In (fst q, j) s -> (snd q <= j)%nat) /\
  (forall q, In q s -> exists i, In (fst q, i) r).
Proof.
  intros Gs Hs. destruct Hs as [|p s Hs Hp]; cbv zeta.
  - simpl. repeat split; try constructor; try contradiction.
  - inversion Gs as [|? ? Gp Gs']; subst.
    assert (Hnext : Forall (fun q => ltb (fst p) (fst q) = true
                                     \/ fst p = fst q) s).
    { eapply Forall_impl; [|exact Hp]. intros q [H | [H _]]; auto. }
    destruct (flagged_after (fst p) s Gp Gs' Hs Hnext)
      as (Hsorted & Hafter & Hleast & Hall).
    rewrite Forall_forall in Gs', Hafter, Hp.
    cbn [flagged]. split; [|split].
    + cbn [map]. constructor; [exact Hsorted|].
      apply Forall_forall. intros k Hk.
      apply in_map_iff in Hk as (q & <- & Hq). now apply Hafter.
    + intros q [<- | Hq].
      * split; [now left|]. intros j [Hj | Hj].
        -- apply (f_equal snd) in Hj. simpl in Hj. lia.
        -- destruct (Hp _ Hj) as [H | [_ H]]; simpl in *; [|lia].
           rewrite ltb_irrefl in H by assumption. discriminate.
      * destruct (Hleast q Hq) as [Hqs Hmin].
        split; [now right|]. intros j [Hj | Hj]; [|now apply Hmin].
        specialize (Hafter q Hq). rewrite Hj in Hafter. simpl in Hafter.
        rewrite ltb_irrefl in Hafter; [discriminate|].
        apply Gs'. exact Hqs.
    + intros q [<- | Hq].
      * exists (snd p). left. now destruct p.
      * destruct (neb (fst q) (fst p)) eqn:E'.
        -- destruct (Hall q Hq) as [i Hi].
           { intros H. apply neb_spec in H; auto. congruence. }
           exists i. now right.
        -- apply neb_spec in E'; auto.
           exists (snd p). left. rewrite E'. now destruct p.
Qed.

(** What [numpy.unique] returns: the keys in strictly increasing
    order, each with the position of its first occurrence, and no key
    of the input is lost. *)
Lemma np_unique_index_spec (ar : list K) :
  Forall good ar ->
  let kept := flagged neb None (argsort ltb ar) in
  StronglySorted (key_lt ltb) (map fst kept) /\
  (forall k i, In (k, i) kept -> first_occurrence ar k i) /\
  (forall k, In k ar -> In k (map fst kept)).
Proof.
  intros Har. cbv zeta.
  destruct (argsort_spec ar Har) as (Hs & Gs & Hmem).
  destruct (flagged_first (argsort ltb ar) Gs Hs)
    as (Hsorted & Hleast & Hall).
  split; [exact Hsorted|]. split.
  - intros k i Hki. destruct (Hleast _ Hki) as [Hin Hmin].
    split; [now apply Hmem|]. intros j Hj Hnth.
    apply Hmem in Hnth. apply Hmin in Hnth. simpl in Hnth. lia.
  - intros k Hk. apply In_nth_error in Hk as [j Hj].
    apply Hmem in Hj. destruct (Hall _ Hj) as [i Hi].
    apply in_map_iff. exists (k, i). auto.
Qed.

Lemma key_lt_asym (a b : K) :
  good a -> good b -> ltb a b = true -> ltb b a = false.
Proof.
  intros Ga Gb H. destruct (ltb b a) eqn:E; [|reflexivity].
  assert (ltb a a = true) by eauto.
  rewrite ltb_irrefl in H0 by assumption. discriminate.
Qed.

Lemma key_lt_neb (a b : K) :
  good a -> good b -> ltb a b = true -> neb b a = true.
Proof.
  intros Ga Gb H. destruct (neb b a) eqn:E; [reflexivity|].
  apply neb_spec in E; auto. subst b.
  rewrite ltb_irrefl in H by assumption. discriminate.
Qed.

(** On an array that is already strictly increasing the sort changes
    nothing and every flag is set. *)
Lemma argsort_of_sorted (n : nat) (ar : list K) :
  Forall good ar ->
  StronglySorted (key_lt ltb) ar ->
  fold_right (insert_stable ltb) [] (enumerate_from n ar)
  = enumerate_from n ar.
Proof.
  intros Har Hs. revert n.
  induction Hs as [|k ar Hs IH Hk]; intros n; [reflexivity|].
  inversion Har as [|? ? Gk Har']; subst.
  rewrite enumerate_from_cons. cbn [fold_right]. rewrite (IH Har').
  destruct ar as [|k1 ar]; [reflexivity|].
  rewrite enumerate_from_cons. cbn [insert_stable fst].
  inversion Hk as [|? ? Hkk1 _]; subst.
  inversion Har' as [|? ? Gk1 _]; subst.
  now rewrite (key_lt_asym k k1 Gk Gk1 Hkk1).
Qed.

Lemma flagged_of_sorted (n : nat) (prev : option K) (ar : list K) :
  Forall good ar ->
  StronglySorted (key_lt ltb) ar ->
  match prev with
  | None => True
  | Some k0 => good k0 /\ Forall (key_lt ltb k0) ar
  end ->
  flagged neb prev (enumerate_from n ar) = enumerate_from n ar.
Proof.
  intros Har Hs. revert n prev.
  induction Hs as [|k ar Hs IH Hk]; intros n prev Hprev; [reflexivity|].
  inversion Har as [|? ? Gk Har']; subst.
  rewrite enumerate_from_cons. cbn [flagged fst].
  assert (Hflag : match prev with
                  | None => true
                  | Some k0 => neb k k0
                  end = true).
  { destruct prev as [k0|]; [|reflexivity].
    destruct Hprev as [Gk0 Hk0]. inversion Hk0; subst.
    now apply key_lt_neb. }
  rewrite Hflag. f_equal. apply IH; auto.
Qed.

Lemma np_unique_index_of_sorted (ar : list K) :
  Forall good ar ->
  StronglySorted (key_lt ltb) ar ->
  np_unique_index ltb neb ar = (ar, seq 0 (length ar)).
Proof.
  intros Har Hs. unfold np_unique_index, argsort.
  rewrite argsort_of_sorted, (flagged_of_sorted 0 None) by auto.
  unfold enumerate_from.
  assert (Hl : length ar = length (seq 0 (length ar)))
    by now rewrite length_seq.
  revert Hl. generalize (seq 0 (length ar)). clear.
  induction ar as [|k ar IH]; intros [|i l] Hl; try discriminate;
    [reflexivity|].
  simpl in *. injection Hl as Hl. specialize (IH l Hl).
  injection IH as H1 H2. now rewrite H1, H2.
Qed.
End UniqueFacts.

(* ================================================================= *)
(** ** The complex keys of numeric coordinates *)

Lemma complex_key_num (x y : float) :
  is_num x -> is_num y -> complex_key x y = (x, y).
Proof.
  intros [a ->] [b ->]. unfold complex_key, cadd, cmul, of_real, imag_unit.
  simpl. f_equal; f_equal; ring.
Qed.

Lemma clt_coord_lt (z w : complex) :
  complex_is_num z -> complex_is_num w ->
  (clt z w = true <-> coord_lt z w).
Proof.
  destruct z as [x y], w as [u v].
  intros [[a Ha] [b Hb]] [[c Hc] [d Hd]]. simpl in *. subst.
  unfold clt, coord_lt, fgt, re, im. cbn [fst snd is_nan negb orb andb].
  destruct (flt (num a) (num c)) eqn:E1; [tauto|].
  destruct (flt (num c) (num a)) eqn:E2.
  - split; [discriminate|].
    apply flt_num in E2. intros [H | [H _]]; [discriminate|].
    injection H as ->. exfalso. eapply Qclt_not_eq; eauto.
  - apply flt_false_num in E1, E2.
    assert (a = c) by now apply Qcle_antisym. subst c.
    rewrite (proj2 (feq_num a a) eq_refl). cbn [orb].
    rewrite orb_false_r. split; [auto|]. now intros [H | [_ H]].
Qed.

Lemma flt_irrefl (x : float) : flt x x = false.
Proof.
  destruct x as [|a]; [reflexivity|]. apply flt_false_num. apply Qcle_refl.
Qed.

Lemma flt_trans (x y z : float) :
  flt x y = true -> flt y z = true -> flt x z = true.
Proof.
  destruct x as [|a], y as [|b], z as [|c]; try discriminate.
  rewrite !flt_num. apply Qclt_trans.
Qed.

Lemma flt_connex (x y : float) :
  is_num x -> is_num y -> flt x y = false -> flt y x = false -> x = y.
Proof.
  intros [a ->] [b ->] H1 H2. apply flt_false_num in H1, H2.
  f_equal. now apply Qcle_antisym.
Qed.

Lemma clt_irrefl (z : complex) : complex_is_num z -> clt z z = false.
Proof.
  intros Gz. destruct (clt z z) eqn:E; [|reflexivity].
  apply clt_coord_lt in E; auto.
  destruct E as [E | [_ E]]; rewrite flt_irrefl in E; discriminate.
Qed.

Lemma clt_trans (a b c : complex) :
  complex_is_num a -> complex_is_num b -> complex_is_num c ->
  clt a b = true -> clt b c = true -> clt a c = true.
Proof.
  intros Ga Gb Gc. rewrite !clt_coord_lt by assumption.
  intros [H1 | [E1 H1]] [H2 | [E2 H2]].
  - left. eapply flt_trans; eauto.
  - left. now rewrite <- E2.
  - left. now rewrite E1.
  - right. split; [congruence | eapply flt_trans; eauto].
Qed.

Lemma clt_connex (a b : complex) :
  complex_is_num a -> complex_is_num b ->
  clt a b = false -> clt b a = false -> a = b.
Proof.
  intros Ga Gb H1 H2.
  assert (N1 : ~ coord_lt a b).
  { intros H. apply clt_coord_lt in H; auto. congruence. }
  assert (N2 : ~ coord_lt b a).
  { intros H. apply clt_coord_lt in H; auto. congruence. }
  destruct a as [x y], b as [u v]. destruct Ga as [Gx Gy], Gb as [Gu Gv].
  unfold coord_lt in *. simpl in *.
  assert (x = u).
  { apply flt_connex; auto.
    - destruct (flt x u); [exfalso; auto | reflexivity].
    - destruct (flt u x); [exfalso; auto | reflexivity]. }
  subst u. f_equal. apply flt_connex; auto.
  - destruct (flt y v); [exfalso; auto | reflexivity].
  - destruct (flt v y); [exfalso; auto | reflexivity].
Qed.

Lemma cne_spec (a b : complex) :
  complex_is_num a -> complex_is_num b -> (cne a b = false <-> a = b).
Proof.
  destruct a as [x y], b as [u v].
  intros [[p Hp] [q Hq]] [[r Hr] [t Ht]]. simpl in *. subst.
  unfold cne, fne. simpl. rewrite orb_false_iff, !negb_false_iff.
  change (feq (num p) (num r) = true /\ feq (num q) (num t) = true
          <-> (num p, num q) = (num r, num t)).
  rewrite !feq_num. split.
  - now intros [-> ->].
  - intros [= -> ->]. auto.
Qed.

(* ================================================================= *)
(** ** The de-duplication step *)

Lemma zip_with_complex_key (fx fy : list float) :
  Forall is_num fx -> Forall is_num fy ->
  zip_with complex_key fx fy = combine fx fy.
Proof.
  intros Hx. revert fy. induction Hx as [|x fx Gx Hx IH]; intros fy Hy;
    [reflexivity|].
  destruct Hy as [|y fy Gy Hy]; [reflexivity|].
  rewrite zip_with_cons. simpl. now rewrite complex_key_num, IH.
Qed.

Lemma same_shape_length {A B} (a : list (list A)) (b : list (list B)) :
  same_shape a b = true -> length (flatten a) = length (flatten b).
Proof.
  revert b. induction a as [|r a IH]; intros [|t b]; simpl;
    try discriminate; [reflexivity|].
  intros H. apply andb_true_iff in H as [H1 H2]. apply Nat.eqb_eq in H1.
  unfold flatten in *. rewrite !length_app, H1, (IH b H2). reflexivity.
Qed.

Lemma Forall_combine_num (fx fy : list float) :
  Forall is_num fx -> Forall is_num fy ->
  Forall complex_is_num (combine fx fy).
Proof.
  intros Hx Hy. apply Forall_forall. intros [x y] Hin.
  rewrite Forall_forall in Hx, Hy. split; simpl.
  - apply Hx. eapply in_combine_l; eauto.
  - apply Hy. eapply in_combine_r; eauto.
Qed.

Lemma nth_error_combine_inv {A B} (a : list A) (b : list B) n x y :
  nth_error (combine a b) n = Some (x, y) ->
  nth_error a n = Some x /\ nth_error b n = Some y.
Proof.
  revert b n. induction a as [|a0 a IH]; intros [|b0 b] [|n]; simpl;
    try discriminate.
  - intros [= -> ->]. auto.
  - apply IH.
Qed.

Lemma combine_fst_snd {A B} (l : list (A * B)) :
  combine (map fst l) (map snd l) = l.
Proof.
  induction l as [|[a b] l IH]; simpl; [reflexivity|]. now rewrite IH.
Qed.

Lemma index_array_map {A Q} (a : list A) (g : Q -> nat) (h : Q -> A)
    (l : list Q) :
  (forall q, In q l -> nth_error a (g q) = Some (h q)) ->
  index_array a (map g l) = Ok (map h l).
Proof.
  unfold index_array. induction l as [|q l IH]; intros H; simpl;
    [reflexivity|].
  rewrite (H q) by now left. simpl. rewrite IH; [reflexivity|].
  intros q' Hq'. apply H. now right.
Qed.

Lemma index_array_total {A} (a : list A) (idx : list nat) :
  Forall (fun i => (i < length a)%nat) idx ->
  exists out,
    index_array a idx = Ok out /\ length out = length idx /\
    forall n i, nth_error idx n = Some i -> nth_error out n = nth_error a i.
Proof.
  intros H. unfold index_array.
  match goal with |- context [mapM ?f idx] => set (f0 := f) end.
  destruct (mapM_total f0 idx) as [out Hout].
  { eapply Forall_impl; [|exact H]. intros i Hi. unfold f0.
    destruct (nth_error_defined a i Hi) as [v ->]. eauto. }
  exists out. split; [exact Hout|].
  destruct (mapM_Ok_nth _ _ _ Hout) as [Hl Hnth]. split; [exact Hl|].
  intros n i Hn. destruct (Hnth n i Hn) as (v & Hv & ->).
  unfold f0 in Hv. destruct (nth_error a i); congruence.
Qed.

Lemma index_array_seq {A} (pre a : list A) :
  index_array (pre ++ a) (seq (length pre) (length a)) = Ok a.
Proof.
  unfold index_array. revert pre. induction a as [|v a IH]; intros pre;
    simpl; [reflexivity|].
  rewrite nth_error_app2, Nat.sub_diag by lia. simpl.
  specialize (IH (pre ++ [v])). rewrite <- app_assoc, length_app in IH.
  simpl in IH. rewrite Nat.add_1_r in IH. rewrite IH. reflexivity.
Qed.

Lemma index_array_all {A} (a : list A) :
  index_array a (seq 0 (length a)) = Ok a.
Proof. exact (index_array_seq [] a). Qed.

(** One run of the step on numeric coordinates of one shape, with a
    solution array that covers every position: it returns, and what it
    returns are the flagged entries of the sorted key array. *)
Lemma unique_run (x y : list (list float)) (elem_solution : list float) :
  same_shape x y = true ->
  Forall is_num (flatten x) ->
  Forall is_num (flatten y) ->
  (length (flatten x) <= length elem_solution)%nat ->
  let keys := combine (flatten x) (flatten y) in
  let kept := flagged cne None (argsort clt keys) in
  exists U_unique,
    prepare_for_interpolation_unique x y elem_solution
    = Ok (map re (map fst kept), map im (map fst kept), U_unique) /\
    length U_unique = length kept /\
    (forall n k i, nth_error kept n = Some (k, i) ->
                   nth_error U_unique n = nth_error elem_solution i) /\
    StronglySorted (key_lt clt) (map fst kept) /\
    Forall complex_is_num (map fst kept) /\
    (forall k i, In (k, i) kept -> first_occurrence keys k i) /\
    (forall k, In k keys -> In k (map fst kept)).
Proof.
  intros Hshape Hx Hy HU keys kept.
  assert (Hgood : Forall complex_is_num keys) by now apply Forall_combine_num.
  destruct (np_unique_index_spec clt cne complex_is_num
              clt_irrefl clt_trans clt_connex cne_spec keys Hgood)
    as (Hsorted & Hfirst & Hall).
  fold kept in Hsorted, Hfirst, Hall.
  assert (Hlen : length keys = length (flatten x)).
  { unfold keys. rewrite length_combine, (same_shape_length x y Hshape). lia. }
  assert (Hpos : forall k i, In (k, i) kept ->
             nth_error (flatten x) i = Some (re k) /\
             nth_error (flatten y) i = Some (im k) /\
             (i < length elem_solution)%nat).
  { intros [kx ky] i Hin. destruct (Hfirst _ _ Hin) as [Hnth _].
    assert (Hi : (i < length keys)%nat).
    { apply nth_error_Some. intros Hn.
      assert (Some (kx, ky) = None :> option complex)
        by exact (eq_trans (eq_sym Hnth) Hn).
      discriminate. }
    apply nth_error_combine_inv in Hnth as [H1 H2].
    repeat split; auto. lia. }
  destruct (index_array_total elem_solution (map snd kept))
    as (U_unique & HUu & HUl & HUn).
  { apply Forall_forall. intros i Hi.
    apply in_map_iff in Hi as ([k i'] & <- & Hin). simpl.
    now apply (Hpos k i'). }
  exists U_unique. split; [|split; [|split; [|split; [|split; [|split]]]]];
    auto.
  - unfold prepare_for_interpolation_unique, complex_keys.
    rewrite Hshape. simpl. rewrite zip_with_complex_key by assumption.
    fold keys. unfold np_unique_index. fold kept.
    rewrite (index_array_map (flatten x) snd (fun q => re (fst q)) kept).
    2:{ intros [k i] Hin. now apply (Hpos k i). }
    simpl.
    rewrite (index_array_map (flatten y) snd (fun q => im (fst q)) kept).
    2:{ intros [k i] Hin. now apply (Hpos k i). }
    simpl. rewrite HUu. simpl. now rewrite !map_map.
  - now rewrite length_map in HUl.
  - intros n k i Hn. apply HUn. now rewrite nth_error_map, Hn.
  - apply Forall_forall. intros k Hk.
    apply in_map_iff in Hk as ([k' i] & <- & Hin). simpl.
    rewrite Forall_forall in Hgood. apply Hgood.
    destruct (Hfirst _ _ Hin) as [Hnth _]. eapply nth_error_In; eauto.
Qed.

Lemma length_flagged {K} (neb : K -> K -> bool) (prev : option K)
    (s : list (K * nat)) :
  (length (flagged neb prev s) <= length s)%nat.
Proof.
  revert prev. induction s as [|p s IH]; intros prev; simpl; [lia|].
  destruct (match prev with None => true | Some k => neb (fst p) k end);
    simpl; specialize (IH (Some (fst p))); lia.
Qed.

Lemma length_argsort {K} (ltb : K -> K -> bool) (ar : list K) :
  length (argsort ltb ar) = length ar.
Proof.
  unfold argsort.
  assert (H : forall l : list (K * nat),
             length (fold_right (insert_stable ltb) [] l) = length l).
  { induction l as [|p l IH]; simpl; [reflexivity|].
    now rewrite length_insert_stable, IH. }
  rewrite H. unfold enumerate_from.
  rewrite length_combine, length_seq. lia.
Qed.

Lemma StronglySorted_impl_In {A} (R S : A -> A -> Prop) (l : list A) :
  (forall a b, In a l -> In b l -> R a b -> S a b) ->
  StronglySorted R l -> StronglySorted S l.
Proof.
  intros H Hs. induction Hs as [|a l Hs IH Ha]; constructor.
  - apply IH. intros b c Hb Hc. apply H; now right.
  - rewrite Forall_forall in *. intros b Hb.
    apply H; [now left | now right | now apply Ha].
Qed.

Lemma combine_re_im (ks : list complex) :
  combine (map re ks) (map im ks) = ks.
Proof. exact (combine_fst_snd ks). Qed.

Lemma sorted_keys_coord_lt (ks : list complex) :
  Forall complex_is_num ks ->
  StronglySorted (key_lt clt) ks -> StronglySorted coord_lt ks.
Proof.
  intros Hg. apply StronglySorted_impl_In. intros a b Ha Hb Hab.
  rewrite Forall_forall in Hg. apply clt_coord_lt; auto.
Qed.

(** C10.  On numeric coordinates the step returns the coordinates in
    strictly increasing order of the key [x + 1j*y] (increasing x, ties
    broken by increasing y), whatever the order of the input; every
    coordinate of the input is returned; and the entry returned with a
    coordinate is the entry of [elem_solution] at the first position of
    that coordinate in the flattened input. *)
Theorem prepare_for_interpolation_unique_sorted_first :
  forall (x y : list (list float)) (elem_solution : list float),
    same_shape x y = true ->
    Forall is_num (flatten x) ->
    Forall is_num (flatten y) ->
    (length (flatten x) <= length elem_solution)%nat ->
    exists x_unique y_unique U_unique,
      prepare_for_interpolation_unique x y elem_solution
      = Ok (x_unique, y_unique, U_unique) /\
      length y_unique = length x_unique /\
      length U_unique = length x_unique /\
      StronglySorted coord_lt (combine x_unique y_unique) /\
      (forall n xv yv,
          nth_error x_unique n = Some xv ->
          nth_error y_unique n = Some yv ->
          exists j,
            first_occurrence (combine (flatten x) (flatten y)) (xv, yv) j /\
            nth_error U_unique n = nth_error elem_solution j) /\
      (forall p, In p (combine (flatten x) (flatten y)) ->
                 In p (combine x_unique y_unique)).
Proof.
  intros x y elem_solution Hshape Hx Hy HU.
  destruct (unique_run x y elem_solution Hshape Hx Hy HU)
    as (U_unique & Hrun & HlU & HUn & Hsorted & Hgood & Hfirst & Hall).
  set (kept := flagged cne None
                 (argsort clt (combine (flatten x) (flatten y)))) in *.
  exists (map re (map fst kept)), (map im (map fst kept)), U_unique.
  split; [exact Hrun|]. rewrite !length_map, combine_re_im.
  split; [reflexivity|]. split; [exact HlU|].
  split; [now apply sorted_keys_coord_lt|]. split; [|exact Hall].
  intros n xv yv Hxn Hyn.
  rewrite map_map, nth_error_map in Hxn, Hyn.
  destruct (nth_error kept n) as [[[kx ky] i]|] eqn:En; [|discriminate].
  simpl in Hxn, Hyn. injection Hxn as <-. injection Hyn as <-.
  exists i. split.
  - apply Hfirst. eapply nth_error_In; eauto.
  - eapply HUn; eauto.
Qed.

Lemma prepare_for_interpolation_unique_sorted_first_witness :
  exists x_unique y_unique U_unique,
    prepare_for_interpolation_unique
      [[fl 2 1; fl 1 1; fl 2 1]; [fl 1 1; fl 1 1; fl 0 1]]
      [[fl 0 1; fl 5 1; fl 0 1]; [fl 3 1; fl 5 1; fl 7 1]]
      [fl 10 1; fl 11 1; fl 12 1; fl 13 1; fl 14 1; fl 15 1]
    = Ok (x_unique, y_unique, U_unique) /\
    StronglySorted coord_lt (combine x_unique y_unique).
Proof.
  destruct (prepare_for_interpolation_unique_sorted_first
              [[fl 2 1; fl 1 1; fl 2 1]; [fl 1 1; fl 1 1; fl 0 1]]
              [[fl 0 1; fl 5 1; fl 0 1]; [fl 3 1; fl 5 1; fl 7 1]]
              [fl 10 1; fl 11 1; fl 12 1; fl 13 1; fl 14 1; fl 15 1])
    as (xu & yu & Uu & H & _ & _ & Hs & _).
  - reflexivity.
  - each number.
  - each number.
  - simpl. lia.
  - exists xu, yu, Uu. split; [exact H | exact Hs].
Defined.

(** The same input, run: the points (2,0), (1,5), (2,0), (1,3), (1,5),
    (0,7) come back as (0,7), (1,3), (1,5), (2,0), which is not the order
    in which they were first seen, with the solution entries of the
    positions 5, 3, 1 and 0. *)
Lemma prepare_for_interpolation_unique_example :
  prepare_for_interpolation_unique
    [[fl 2 1; fl 1 1; fl 2 1]; [fl 1 1; fl 1 1; fl 0 1]]
    [[fl 0 1; fl 5 1; fl 0 1]; [fl 3 1; fl 5 1; fl 7 1]]
    [fl 10 1; fl 11 1; fl 12 1; fl 13 1; fl 14 1; fl 15 1]
  = Ok ([fl 0 1; fl 1 1; fl 1 1; fl 2 1],
        [fl 7 1; fl 3 1; fl 5 1; fl 0 1],
        [fl 15 1; fl 13 1; fl 11 1; fl 10 1]).
Proof. run. Qed.

(** C8.  Applied to its own output (as arrays of one row), the step
    returns that output unchanged; the output is never longer than the
    input. *)
Theorem prepare_for_interpolation_unique_idempotent :
  forall (x y : list (list float)) (elem_solution : list float),
    same_shape x y = true ->
    Forall is_num (flatten x) ->
    Forall is_num (flatten y) ->
    (length (flatten x) <= length elem_solution)%nat ->
    exists x_unique y_unique U_unique,
      prepare_for_interpolation_unique x y elem_solution
      = Ok (x_unique, y_unique, U_unique) /\
      (length x_unique <= length (flatten x))%nat /\
      prepare_for_interpolation_unique [x_unique] [y_unique] U_unique
      = Ok (x_unique, y_unique, U_unique).
Proof.
  intros x y elem_solution Hshape Hx Hy HU.
  destruct (unique_run x y elem_solution Hshape Hx Hy HU)
    as (U_unique & Hrun & HlU & _ & Hsorted & Hgood & _ & _).
  set (kept := flagged cne None
                 (argsort clt (combine (flatten x) (flatten y)))) in *.
  set (ks := map fst kept) in *.
  exists (map re ks), (map im ks), U_unique.
  split; [exact Hrun|]. split.
  - unfold ks, kept. rewrite !length_map.
    etransitivity; [apply length_flagged|].
    rewrite length_argsort. unfold complex. rewrite length_combine. lia.
  - assert (Hxn : Forall is_num (map re ks)).
    { apply Forall_forall. intros v Hv.
      apply in_map_iff in Hv as (k & <- & Hk).
      rewrite Forall_forall in Hgood. now apply Hgood. }
    assert (Hyn : Forall is_num (map im ks)).
    { apply Forall_forall. intros v Hv.
      apply in_map_iff in Hv as (k & <- & Hk).
      rewrite Forall_forall in Hgood. now apply Hgood. }
    unfold prepare_for_interpolation_unique, complex_keys.
    cbn [same_shape]. rewrite !length_map, Nat.eqb_refl. cbn [andb bind].
    unfold flatten. cbn [concat]. rewrite !app_nil_r.
    rewrite zip_with_complex_key, combine_re_im by assumption.
    rewrite (np_unique_index_of_sorted clt cne complex_is_num
               clt_irrefl clt_trans cne_spec ks Hgood Hsorted).
    assert (Hl1 : length ks = length (map re ks)) by now rewrite length_map.
    assert (Hl2 : length ks = length (map im ks)) by now rewrite length_map.
    assert (Hl3 : length ks = length U_unique).
    { unfold ks. rewrite length_map. congruence. }
    rewrite Hl1 at 1. rewrite index_array_all. cbn [bind].
    rewrite Hl2 at 1. rewrite index_array_all. cbn [bind].
    rewrite Hl3, index_array_all. reflexivity.
Qed.

Lemma prepare_for_interpolation_unique_idempotent_witness :
  exists x_unique y_unique U_unique,
    prepare_for_interpolation_unique
      [[fl 2 1; fl 1 1; fl 2 1]; [fl 1 1; fl 1 1; fl 0 1]]
      [[fl 0 1; fl 5 1; fl 0 1]; [fl 3 1; fl 5 1; fl 7 1]]
      [fl 10 1; fl 11 1; fl 12 1; fl 13 1; fl 14 1; fl 15 1]
    = Ok (x_unique, y_unique, U_unique) /\
    prepare_for_interpolation_unique [x_unique] [y_unique] U_unique
    = Ok (x_unique, y_unique, U_unique).
Proof.
  destruct (prepare_for_interpolation_unique_idempotent
              [[fl 2 1; fl 1 1; fl 2 1]; [fl 1 1; fl 1 1; fl 0 1]]
              [[fl 0 1; fl 5 1; fl 0 1]; [fl 3 1; fl 5 1; fl 7 1]]
              [fl 10 1; fl 11 1; fl 12 1; fl 13 1; fl 14 1; fl 15 1])
    as (xu & yu & Uu & H & _ & H2).
  - reflexivity.
  - each number.
  - each number.
  - simpl. lia.
  - exists xu, yu, Uu. split; [exact H | exact H2].
Defined.

(* ################################################################# *)
(** * Further properties of the module *)

(* ================================================================= *)
(** ** [find_nearest] *)

Lemma fge_false_num (p q : Qc) :
  fge (num p) (num q) = false <-> (p < q)%Qc.
Proof.
  unfold fge. split; intros H.
  - apply Qcnot_le_lt. intros Hle. apply fle_num in Hle. congruence.
  - destruct (fle (num q) (num p)) eqn:E; [|reflexivity].
    apply fle_num in E. exfalso. eapply Qcle_not_lt; eauto.
Qed.

(** The scan over numbers: the index returned holds a least entry, and
    every entry scanned before it is strictly greater. *)
Lemma argmin_from_least (l : list float) :
  Forall is_num l ->
  forall (b : Qc) (bi i : nat),
    (bi < i)%nat ->
    exists m : Qc,
      (m <= b)%Qc /\
      (forall k x, nth_error l k = Some (num x) -> (m <= x)%Qc) /\
      ((argmin_from (num b) bi i l = bi /\ m = b) \/
       ((i <= argmin_from (num b) bi i l)%nat /\ (m < b)%Qc /\
        nth_error l (argmin_from (num b) bi i l - i) = Some (num m) /\
        forall k x, (i + k < argmin_from (num b) bi i l)%nat ->
                    nth_error l k = Some (num x) -> (m < x)%Qc)).
Proof.
  induction 1 as [|y l [q ->] Hl IH]; intros b bi i Hbi.
  - exists b. split; [apply Qcle_refl|]. split.
    + intros [|k] x; discriminate.
    + left. auto.
  - cbn [argmin_from is_nan]. destruct (fge (num q) (num b)) eqn:E; cbn [negb].
    + assert (Hbq : (b <= q)%Qc) by (unfold fge in E; now apply fle_num in E).
      destruct (IH b bi (S i)) as (m & Hmb & Hall & Hcase); [lia|].
      exists m. split; [exact Hmb|]. split.
      * intros [|k] x Hk; simpl in Hk.
        -- injection Hk as ->. eapply Qcle_trans; eauto.
        -- eauto.
      * destruct Hcase as [[Hr Hm] | (Hr & Hlt & Hnth & Hfirst)];
          [left; auto|]. right.
        set (r := argmin_from (num b) bi (S i) l) in *.
        split; [lia|]. split; [exact Hlt|]. split.
        -- replace (r - i)%nat with (S (r - S i)) by lia. exact Hnth.
        -- intros [|k] x Hk Hx; simpl in Hx.
           ++ injection Hx as ->. eapply Qclt_le_trans; eauto.
           ++ apply (Hfirst k x); [lia | exact Hx].
    + assert (Hqb : (q < b)%Qc) by now apply fge_false_num.
      destruct (IH q i (S i)) as (m & Hmq & Hall & Hcase); [lia|].
      exists m. split; [|split].
      * apply Qclt_le_weak. eapply Qcle_lt_trans; eauto.
      * intros [|k] x Hk; simpl in Hk.
        -- injection Hk as ->. exact Hmq.
        -- eauto.
      * right. destruct Hcase as [[Hr Hm] | (Hr & Hlt & Hnth & Hfirst)].
        -- rewrite Hr, Hm. split; [lia|]. split; [exact Hqb|]. split.
           ++ now rewrite Nat.sub_diag.
           ++ intros k x Hk. lia.
        -- set (r := argmin_from (num q) i (S i) l) in *.
           split; [lia|]. split; [eapply Qclt_trans; eauto|]. split.
           ++ replace (r - i)%nat with (S (r - S i)) by lia. exact Hnth.
           ++ intros [|k] x Hk Hx; simpl in Hx.
              ** injection Hx as ->. exact Hlt.
              ** apply (Hfirst k x); [lia | exact Hx].
Qed.

Lemma np_argmin_least (l : list float) :
  l <> [] -> Forall is_num l ->
  exists idx m,
    np_argmin l = Ok idx /\
    nth_error l idx = Some (num m) /\
    (forall k x, nth_error l k = Some (num x) -> (m <= x)%Qc) /\
    (forall k x, (k < idx)%nat -> nth_error l k = Some (num x) -> (m < x)%Qc).
Proof.
  destruct l as [|y l]; [congruence|]. intros _ H.
  inversion H as [|? ? [b ->] Hl]; subst.
  destruct (argmin_from_least l Hl b 0%nat 1%nat) as (m & Hmb & Hall & Hcase);
    [lia|].
  cbn [np_argmin]. set (r := argmin_from (num b) 0 1 l) in *.
  exists r, m. split; [reflexivity|].
  destruct Hcase as [[Hr ->] | (Hr & Hlt & Hnth & Hfirst)].
  - rewrite Hr. split; [reflexivity|]. split.
    + intros [|k] x Hk; simpl in Hk; [injection Hk as ->; apply Qcle_refl|].
      eauto.
    + intros k x Hk. lia.
  - split; [|split].
    + replace r with (S (r - 1)) by lia. exact Hnth.
    + intros [|k] x Hk; simpl in Hk; [injection Hk as ->; exact Hmb|]. eauto.
    + intros [|k] x Hk Hx; simpl in Hx.
      * injection Hx as ->. exact Hlt.
      * apply (Hfirst k x); [lia | exact Hx].
Qed.

Lemma distance_num (value a : float) :
  is_num value -> is_num a -> is_num (distance value a).
Proof. intros [v ->] [q ->]. eexists. reflexivity. Qed.

Lemma nth_error_map_Some {A B} (f : A -> B) (l : list A) (n : nat) (b : B) :
  nth_error (map f l) n = Some b ->
  exists a, nth_error l n = Some a /\ b = f a.
Proof.
  rewrite nth_error_map. destruct (nth_error l n) as [a|]; [|discriminate].
  intros [= <-]. eauto.
Qed.

(** X1.  On a non-empty array of numbers and a numeric value,
    [find_nearest] returns the position of an entry at least distance from
    the value, and the first such position: every entry before it is
    strictly farther away. *)
Theorem find_nearest_first_minimum :
  forall (array : list float) (value : float),
    array <> [] ->
    Forall is_num array ->
    is_num value ->
    exists idx a,
      find_nearest array value = Ok idx /\
      nth_error array idx = Some a /\
      (forall j b, nth_error array j = Some b ->
                   fle (distance value a) (distance value b) = true) /\
      (forall j b, (j < idx)%nat -> nth_error array j = Some b ->
                   flt (distance value a) (distance value b) = true).
Proof.
  intros array value Hne Harr Hv.
  assert (Hd : Forall is_num (map (distance value) array)).
  { apply Forall_map. eapply Forall_impl; [|exact Harr].
    intros a Ha. now apply distance_num. }
  destruct (np_argmin_least (map (distance value) array))
    as (idx & m & Hidx & Hnth & Hall & Hfirst); auto.
  { destruct array; [congruence | discriminate]. }
  apply nth_error_map_Some in Hnth as (a & Ha & Hm).
  exists idx, a. split; [exact Hidx|]. split; [exact Ha|].
  rewrite <- Hm. rewrite Forall_forall in Harr. split.
  - intros j b Hb.
    destruct (distance_num value b Hv) as [x Hx].
    { apply Harr. eapply nth_error_In; eauto. }
    rewrite Hx. apply fle_num. apply (Hall j).
    now rewrite nth_error_map, Hb, <- Hx.
  - intros j b Hj Hb.
    destruct (distance_num value b Hv) as [x Hx].
    { apply Harr. eapply nth_error_In; eauto. }
    rewrite Hx. apply flt_num. apply (Hfirst j); [exact Hj|].
    now rewrite nth_error_map, Hb, <- Hx.
Qed.

Lemma find_nearest_first_minimum_witness :
  exists idx, find_nearest [fl 4 1; fl 1 1; fl 3 1; fl 1 1] (fl 2 1) = Ok idx.
Proof.
  destruct (find_nearest_first_minimum
              [fl 4 1; fl 1 1; fl 3 1; fl 1 1] (fl 2 1))
    as (idx & a & H & _).
  - discriminate.
  - each number.
  - number.
  - exists idx. exact H.
Defined.

Lemma num_inj (p q : Qc) : num p = num q -> p = q.
Proof.
  intros H.
  exact (f_equal (fun x => match x with num r => r | nan => p end) H).
Qed.

Lemma distance_zero (v a : Qc) :
  distance (num v) (num a) = num (Q2Qc 0) <-> a = v.
Proof.
  change (distance (num v) (num a)) with (num (Qcabs (a - v))). split.
  - intros H. apply num_inj in H. apply Qcabs_null in H.
    replace a with ((a - v) + v)%Qc by ring. rewrite H. ring.
  - intros ->. f_equal. replace (v - v)%Qc with (Q2Qc 0) by ring.
    apply Qcabs_pos. apply Qcle_refl.
Qed.

(** X2.  When the value occurs in the array of numbers, [find_nearest]
    returns the position of its first occurrence. *)
Theorem find_nearest_of_member :
  forall (array : list float) (value : float),
    Forall is_num array ->
    In value array ->
    exists idx,
      find_nearest array value = Ok idx /\
      first_occurrence array value idx.
Proof.
  intros array value Harr Hin.
  assert (Hv : is_num value).
  { rewrite Forall_forall in Harr. now apply Harr. }
  destruct Hv as [v ->].
  assert (Hd : Forall is_num (map (distance (num v)) array)).
  { apply Forall_map. eapply Forall_impl; [|exact Harr].
    intros a Ha. apply distance_num; [now exists v | exact Ha]. }
  destruct (np_argmin_least (map (distance (num v)) array))
    as (idx & m & Hidx & Hnth & Hall & Hfirst); auto.
  { destruct array; [contradiction | discriminate]. }
  exists idx. split; [exact Hidx|].
  assert (Hm : m = Q2Qc 0).
  { apply Qcle_antisym.
    - apply In_nth_error in Hin as [k Hk]. apply (Hall k).
      rewrite nth_error_map, Hk. simpl. f_equal. now apply distance_zero.
    - apply nth_error_map_Some in Hnth as (a & Ha & Hma).
      rewrite Forall_forall in Harr.
      destruct (Harr a) as [q ->]; [eapply nth_error_In; eauto|].
      change (distance (num v) (num q)) with (num (Qcabs (q - v))) in Hma.
      apply num_inj in Hma. rewrite Hma. apply Qcabs_nonneg. }
  subst m. split.
  - apply nth_error_map_Some in Hnth as (a & Ha & Hma).
    rewrite Forall_forall in Harr.
    destruct (Harr a) as [q Hq]; [eapply nth_error_In; eauto|]. subst a.
    symmetry in Hma. apply distance_zero in Hma. now subst q.
  - intros j Hj Hnj.
    assert (Hlt : (Q2Qc 0 < Q2Qc 0)%Qc).
    { apply (Hfirst j (Q2Qc 0) Hj).
      rewrite nth_error_map, Hnj. simpl. f_equal. now apply distance_zero. }
    revert Hlt. apply Qcle_not_lt, Qcle_refl.
Qed.

Lemma find_nearest_of_member_witness :
  exists idx,
    find_nearest [fl 4 1; fl 1 1; fl 3 1; fl 1 1] (fl 1 1) = Ok idx /\
    first_occurrence [fl 4 1; fl 1 1; fl 3 1; fl 1 1] (fl 1 1) idx.
Proof.
  apply (find_nearest_of_member [fl 4 1; fl 1 1; fl 3 1; fl 1 1] (fl 1 1)).
  - each number.
  - simpl. auto.
Defined.

(** The scan stops at the first not-a-number entry. *)
Lemma argmin_from_nan (pre rest : list float) (b : Qc) (bi i : nat) :
  Forall is_num pre ->
  argmin_from (num b) bi i (pre ++ nan :: rest) = (i + length pre)%nat.
Proof.
  intros Hpre. revert b bi i.
  induction Hpre as [|y pre [q ->] Hpre IH]; intros b bi i.
  - cbn [app argmin_from is_nan length]. change (fge nan (num b)) with false.
    cbn [negb]. rewrite Nat.add_0_r. destruct rest; reflexivity.
  - cbn [app argmin_from is_nan length].
    destruct (negb (fge (num q) (num b))); rewrite IH; lia.
Qed.

(** X3.  Not-a-number wins the search: when the distance of some entry to
    the value is not-a-number (the entry or the value is), [find_nearest]
    returns the first position where that happens, whatever the other
    distances are. *)
Theorem find_nearest_first_nan :
  forall (array : list float) (value : float) (n : nat) (a : float),
    nth_error array n = Some a ->
    is_nan (distance value a) = true ->
    (forall j b, (j < n)%nat -> nth_error array j = Some b ->
                 is_nan (distance value b) = false) ->
    find_nearest array value = Ok n.
Proof.
  intros array value n a Hn Hnan Hbefore.
  apply nth_error_split in Hn as (pre & rest & -> & Hlen). subst n.
  unfold find_nearest. rewrite map_app. cbn [map].
  fold (distance value a). destruct (distance value a); [|discriminate].
  assert (Hpre : Forall is_num (map (fun x => fabs (x - value)%float) pre)).
  { apply Forall_nth_error. intros q d Hq.
    apply nth_error_map_Some in Hq as (b & Hb & ->).
    apply is_num_not_nan. apply (Hbefore q b).
    - apply nth_error_Some. congruence.
    - rewrite nth_error_app1; [exact Hb|]. apply nth_error_Some. congruence. }
  destruct (map (fun x => fabs (x - value)%float) pre) as [|d ds] eqn:E.
  - apply (f_equal (@length float)) in E. rewrite length_map in E.
    destruct pre; [|discriminate]. cbn [app np_argmin length].
    destruct (map (fun x => fabs (x - value)%float) rest); reflexivity.
  - inversion Hpre as [|? ? [q ->] Hds]; subst.
    cbn [app np_argmin]. rewrite argmin_from_nan by assumption.
    apply (f_equal (@length float)) in E. rewrite length_map in E.
    simpl in E. rewrite E. reflexivity.
Qed.

Lemma find_nearest_first_nan_witness :
  find_nearest [fl 4 1; nan; fl 3 1; nan] (fl 3 1) = Ok 1%nat.
Proof.
  apply (find_nearest_first_nan [fl 4 1; nan; fl 3 1; nan] (fl 3 1) 1 nan).
  - reflexivity.
  - reflexivity.
  - intros [|j] b Hj Hb; [|lia]. injection Hb as <-. reflexivity.
Defined.

(* ================================================================= *)
(** ** More on the fast path *)








(** X5.  Whenever [construct_vertices] returns, the two arrays it returns
    have one row per query point. *)
Theorem construct_vertices_one_row_per_query :
  forall (Q : qhull) (xy uv : list point)
         (vertices : list (triple Z)) (weights : list (triple float)),
    construct_vertices xy uv = Ok (vertices, weights) ->
    length vertices = length uv /\ length weights = length uv.
Proof.
  intros Q xy uv vertices weights H. unfold construct_vertices in H.
  apply bind_Ok_inv in H as (tri & _ & H).
  apply bind_Ok_inv in H as (vs & Hvs & H).
  apply bind_Ok_inv in H as (temp & Ht & H).
  injection H as <- <-.
  apply mapM_Ok_nth in Hvs as [Hlv _]. apply mapM_Ok_nth in Ht as [Hlt _].
  unfold find_simplex in *. rewrite length_map in Hlv, Hlt.
  split; [exact Hlv|].
  rewrite length_map, length_zip_with; rewrite ?length_map; try lia.
  rewrite length_zip_with; rewrite ?length_map; lia.
Qed.

Lemma construct_vertices_one_row_per_query_witness :
  length [(0, 1, 2)%Z] = length [(fl 1 4, fl 1 4)] /\
  length [(fl 1 2, fl 1 4, fl 1 4)] = length [(fl 1 4, fl 1 4)].
Proof.
  exact (construct_vertices_one_row_per_query
           triangle_qhull triangle_xy [(fl 1 4, fl 1 4)]
           [(0, 1, 2)%Z] [(fl 1 2, fl 1 4, fl 1 4)] triangle_map).
Defined.





(* ================================================================= *)
(** ** More on [interpolate_BC] *)

Lemma fold_fmin_nan_acc (l : list float) : fold_left fmin l nan = nan.
Proof. induction l as [|y l IH]; [reflexivity | exact IH]. Qed.

Lemma fold_fmax_nan_acc (l : list float) : fold_left fmax l nan = nan.
Proof. induction l as [|y l IH]; [reflexivity | exact IH]. Qed.

Lemma fold_fmin_nan (l : list float) (x : float) :
  In nan (x :: l) -> fold_left fmin l x = nan.
Proof.
  revert x. induction l as [|y l IH]; intros x [Hx | Hin].
  - now subst.
  - contradiction.
  - subst x. apply fold_fmin_nan_acc.
  - cbn [fold_left]. destruct x as [|p]; [apply fold_fmin_nan_acc|].
    destruct Hin as [-> | Hin]; [apply fold_fmin_nan_acc|].
    apply IH. destruct y as [|q]; [now left|]. right.
    unfold fmin. cbn [is_nan].
    destruct (flt (num q) (num p)); exact Hin.
Qed.

Lemma np_min_nan (a : list float) : In nan a -> np_min a = Ok nan.
Proof.
  destruct a as [|x a]; [contradiction|]. intros H. cbn [np_min].
  now rewrite fold_fmin_nan.
Qed.

Lemma fge_nan_r (x : float) : fge x nan = false.
Proof. reflexivity. Qed.

Lemma fge_nan_l (x : float) : fge nan x = false.
Proof. now destruct x. Qed.

(** X7.  Not-a-number in the data or in the query never reaches
    [griddata]: with non-empty source arrays, if [xdata] or [ydata] holds
    a not-a-number entry, or [xeval] or [yeval] is not-a-number,
    [interpolate_BC] returns not-a-number itself. *)
Theorem interpolate_BC_nan_input :
  forall (xdata ydata Udata : list float) (xeval yeval : float)
         (method : option string),
    xdata <> [] ->
    ydata <> [] ->
    In nan xdata \/ In nan ydata \/ xeval = nan \/ yeval = nan ->
    interpolate_BC xdata ydata Udata xeval yeval method = Ok (Return nan).
Proof.
  intros xdata ydata Udata xeval yeval method Hx Hy Hnan.
  assert (Hxt : exists bx,
             py_and (lo <- np_min xdata ;; Ok (fge xeval lo))
                    (hi <- np_max xdata ;; Ok (fle xeval hi)) = Ok bx /\
             (In nan xdata \/ xeval = nan -> bx = false)).
  { destruct xdata as [|x xs]; [congruence|]. cbn [np_min np_max bind py_and].
    destruct (fge xeval (fold_left fmin xs x)) eqn:E.
    - eexists. split; [reflexivity|]. intros [Hin | ->].
      + rewrite fold_fmin_nan in E by exact Hin. discriminate.
      + rewrite fge_nan_l in E. discriminate.
    - exists false. auto. }
  assert (Hyt : exists yb,
             py_and (lo <- np_min ydata ;; Ok (fge yeval lo))
                    (hi <- np_max ydata ;; Ok (fle yeval hi)) = Ok yb /\
             (In nan ydata \/ yeval = nan -> yb = false)).
  { destruct ydata as [|y ys]; [congruence|]. cbn [np_min np_max bind py_and].
    destruct (fge yeval (fold_left fmin ys y)) eqn:E.
    - eexists. split; [reflexivity|]. intros [Hin | ->].
      + rewrite fold_fmin_nan in E by exact Hin. discriminate.
      + rewrite fge_nan_l in E. discriminate.
    - exists false. auto. }
  destruct Hxt as (bx & Ex & Hbx), Hyt as (yb & Ey & Hyb).
  unfold interpolate_BC. rewrite Ex. cbn [bind].
  destruct bx; [|reflexivity]. rewrite Ey. cbn [bind].
  destruct yb; [|reflexivity]. exfalso.
  destruct Hnan as [H | [H | [H | H]]].
  - discriminate Hbx. auto.
  - discriminate Hyb. auto.
  - discriminate Hbx. auto.
  - discriminate Hyb. auto.
Qed.

Lemma interpolate_BC_nan_input_witness :
  interpolate_BC [fl 0 1; fl 1 1] [fl 0 1; nan] [fl 1 1; fl 2 1]
                 (fl 1 2) (fl 1 2) None
  = Ok (Return nan).
Proof.
  apply (interpolate_BC_nan_input
           [fl 0 1; fl 1 1] [fl 0 1; nan] [fl 1 1; fl 2 1]
           (fl 1 2) (fl 1 2) None).
  - discriminate.
  - discriminate.
  - right. left. simpl. auto.
Defined.

(* ================================================================= *)
(** ** More on the de-duplication step *)

Lemma index_array_Raise {A} (a : list A) (idx : list nat) :
  Exists (fun i => (length a <= i)%nat) idx ->
  index_array a idx = Raise IndexError.
Proof.
  unfold index_array. induction 1 as [i idx Hi | i idx _ IH]; cbn [mapM].
  - apply nth_error_None in Hi. now rewrite Hi.
  - destruct (nth_error a i); [|reflexivity]. cbn [bind]. now rewrite IH.
Qed.

Lemma first_occurrence_unique {A} (ar : list A) (k : A) (i j : nat) :
  first_occurrence ar k i -> first_occurrence ar k j -> i = j.
Proof.
  intros [Hi Hmi] [Hj Hmj].
  destruct (Nat.lt_trichotomy i j) as [H | [H | H]]; [|assumption|].
  - exfalso. exact (Hmj i H Hi).
  - exfalso. exact (Hmi j H Hj).
Qed.

(** On numeric coordinates of one shape the coordinate arrays are always
    indexed successfully; only the solution array can be too short.  The
    flagged entries are exactly the first occurrences. *)
Lemma unique_run_positions (x y : list (list float))
    (elem_solution : list float) :
  same_shape x y = true ->
  Forall is_num (flatten x) ->
  Forall is_num (flatten y) ->
  let keys := combine (flatten x) (flatten y) in
  let kept := flagged cne None (argsort clt keys) in
  prepare_for_interpolation_unique x y elem_solution
  = (U_unique <- index_array elem_solution (map snd kept) ;;
     Ok (map re (map fst kept), map im (map fst kept), U_unique)) /\
  StronglySorted (key_lt clt) (map fst kept) /\
  Forall complex_is_num (map fst kept) /\
  (forall k i, In (k, i) kept <-> first_occurrence keys k i) /\
  (forall k, In k (map fst kept) <-> In k keys).
Proof.
  intros Hshape Hx Hy keys kept.
  assert (Hgood : Forall complex_is_num keys) by now apply Forall_combine_num.
  destruct (np_unique_index_spec clt cne complex_is_num
              clt_irrefl clt_trans clt_connex cne_spec keys Hgood)
    as (Hsorted & Hfirst & Hall).
  fold kept in Hsorted, Hfirst, Hall.
  assert (Hpos : forall k i, In (k, i) kept ->
             nth_error (flatten x) i = Some (re k) /\
             nth_error (flatten y) i = Some (im k)).
  { intros [kx ky] i Hin. destruct (Hfirst _ _ Hin) as [Hnth _].
    now apply nth_error_combine_inv in Hnth. }
  split; [|split; [exact Hsorted|split; [|split]]].
  - unfold prepare_for_interpolation_unique, complex_keys.
    rewrite Hshape. cbn [bind]. rewrite zip_with_complex_key by assumption.
    fold keys. unfold np_unique_index. fold kept.
    rewrite (index_array_map (flatten x) snd (fun q => re (fst q)) kept).
    2:{ intros [k i] Hin. now apply (Hpos k i). }
    cbn [bind].
    rewrite (index_array_map (flatten y) snd (fun q => im (fst q)) kept).
    2:{ intros [k i] Hin. now apply (Hpos k i). }
    cbn [bind]. now rewrite !map_map.
  - apply Forall_forall. intros k Hk.
    apply in_map_iff in Hk as ([k' i] & <- & Hin). cbn [fst].
    rewrite Forall_forall in Hgood. apply Hgood.
    destruct (Hfirst _ _ Hin) as [Hnth _]. eapply nth_error_In; eauto.
  - intros k i. split; [apply Hfirst|]. intros Hki.
    assert (Hk : In k (map fst kept)).
    { apply Hall. destruct Hki as [Hnth _]. eapply nth_error_In; eauto. }
    apply in_map_iff in Hk as ([k' i'] & Hk' & Hin). cbn [fst] in Hk'.
    subst k'.
    now rewrite (first_occurrence_unique keys k i i' Hki (Hfirst _ _ Hin)).
  - intros k. split; [|apply Hall]. intros Hk.
    apply in_map_iff in Hk as ([k' i] & <- & Hin). cbn [fst].
    destruct (Hfirst _ _ Hin) as [Hnth _]. eapply nth_error_In; eauto.
Qed.

(** X8.  What the step needs of [elem_solution]: on numeric coordinates
    of one shape it returns exactly when every position at which a point
    occurs for the first time is a position of [elem_solution], and it
    raises [IndexError] as soon as one such position is not. *)
Theorem prepare_for_interpolation_unique_solution_length :
  forall (x y : list (list float)) (elem_solution : list float),
    same_shape x y = true ->
    Forall is_num (flatten x) ->
    Forall is_num (flatten y) ->
    ((forall p j, first_occurrence (combine (flatten x) (flatten y)) p j ->
                  (j < length elem_solution)%nat) ->
     exists out, prepare_for_interpolation_unique x y elem_solution = Ok out)
    /\
    ((exists p j, first_occurrence (combine (flatten x) (flatten y)) p j /\
                  (length elem_solution <= j)%nat) ->
     prepare_for_interpolation_unique x y elem_solution = Raise IndexError).
Proof.
  intros x y elem_solution Hshape Hx Hy.
  destruct (unique_run_positions x y elem_solution Hshape Hx Hy)
    as (Hrun & _ & _ & Hkept & _).
  set (kept := flagged cne None
                 (argsort clt (combine (flatten x) (flatten y)))) in *.
  rewrite Hrun. split.
  - intros Hcover.
    destruct (index_array_total elem_solution (map snd kept)) as (U & HU & _).
    { apply Forall_forall. intros i Hi.
      apply in_map_iff in Hi as ([k i'] & <- & Hin). cbn [snd].
      apply (Hcover k). now apply Hkept. }
    rewrite HU. cbn [bind]. eauto.
  - intros (p & j & Hfirst & Hlen).
    rewrite index_array_Raise; [reflexivity|].
    apply Exists_exists. exists j. split; [|exact Hlen].
    apply in_map_iff. exists (p, j). split; [reflexivity|]. now apply Hkept.
Qed.

Lemma prepare_for_interpolation_unique_solution_length_witness :
  prepare_for_interpolation_unique
    [[fl 2 1; fl 1 1; fl 2 1]] [[fl 0 1; fl 5 1; fl 0 1]] [fl 10 1]
  = Raise IndexError.
Proof.
  apply (prepare_for_interpolation_unique_solution_length
           [[fl 2 1; fl 1 1; fl 2 1]] [[fl 0 1; fl 5 1; fl 0 1]] [fl 10 1]).
  - reflexivity.
  - each number.
  - each number.
  - exists (fl 1 1, fl 5 1), 1%nat. split; [|simpl; lia]. split.
    + reflexivity.
    + intros [|j] Hj H; [|lia]. simpl in H. discriminate H.
Defined.

Lemma key_lt_sorted_NoDup (ks : list complex) :
  Forall complex_is_num ks ->
  StronglySorted (key_lt clt) ks -> NoDup ks.
Proof.
  intros Hg Hs. induction Hs as [|k ks Hs IH Hk]; constructor.
  - intros Hin. rewrite Forall_forall in Hk. specialize (Hk k Hin).
    unfold key_lt in Hk. inversion Hg; subst.
    rewrite clt_irrefl in Hk by assumption. discriminate.
  - apply IH. now inversion Hg.
Qed.

(** X9.  Whenever the step returns on numeric coordinates of one shape,
    the points it returns are pairwise distinct and are exactly the points
    of the input. *)
Theorem prepare_for_interpolation_unique_same_points :
  forall (x y : list (list float)) (elem_solution : list float)
         (x_unique y_unique U_unique : list float),
    same_shape x y = true ->
    Forall is_num (flatten x) ->
    Forall is_num (flatten y) ->
    prepare_for_interpolation_unique x y elem_solution
    = Ok (x_unique, y_unique, U_unique) ->
    NoDup (combine x_unique y_unique) /\
    (forall p, In p (combine x_unique y_unique)
               <-> In p (combine (flatten x) (flatten y))).
Proof.
  intros x y elem_solution xu yu Uu Hshape Hx Hy Hrun.
  destruct (unique_run_positions x y elem_solution Hshape Hx Hy)
    as (Heq & Hsorted & Hgood & _ & Hsame).
  rewrite Heq in Hrun. apply bind_Ok_inv in Hrun as (U & _ & Hrun).
  injection Hrun as <- <- _. rewrite combine_re_im.
  split; [now apply key_lt_sorted_NoDup | exact Hsame].
Qed.

Lemma prepare_for_interpolation_unique_same_points_witness :
  NoDup (combine [fl 0 1; fl 1 1; fl 1 1; fl 2 1]
                 [fl 7 1; fl 3 1; fl 5 1; fl 0 1]).
Proof.
  apply (prepare_for_interpolation_unique_same_points
           [[fl 2 1; fl 1 1; fl 2 1]; [fl 1 1; fl 1 1; fl 0 1]]
           [[fl 0 1; fl 5 1; fl 0 1]; [fl 3 1; fl 5 1; fl 7 1]]
           [fl 10 1; fl 11 1; fl 12 1; fl 13 1; fl 14 1; fl 15 1]
           [fl 0 1; fl 1 1; fl 1 1; fl 2 1]
           [fl 7 1; fl 3 1; fl 5 1; fl 0 1]
           [fl 15 1; fl 13 1; fl 11 1; fl 10 1]).
  - reflexivity.
  - each number.
  - each number.
  - exact prepare_for_interpolation_unique_example.
Defined.

(** Two strictly increasing key arrays with the same entries are equal. *)
Lemma key_lt_sorted_ext (l l' : list complex) :
  Forall complex_is_num l -> Forall complex_is_num l' ->
  StronglySorted (key_lt clt) l -> StronglySorted (key_lt clt) l' ->
  (forall k, In k l <-> In k l') ->
  l = l'.
Proof.
  intros Hg. revert l'. induction Hg as [|a t Ga Gt IH]; intros l' Hg' Hs Hs' Hin.
  - destruct l' as [|b t']; [reflexivity|].
    exfalso. apply (Hin b). now left.
  - destruct l' as [|b t']; [exfalso; apply (Hin a); now left|].
    inversion Hg' as [|? ? Gb Gt']; subst.
    inversion Hs as [|? ? Hst Ha]; subst.
    inversion Hs' as [|? ? Hst' Hb]; subst.
    rewrite Forall_forall in Ha, Hb. unfold key_lt in Ha, Hb.
    assert (Hab : a = b).
    { destruct (clt a b) eqn:E1.
      - exfalso. destruct (proj1 (Hin a) (or_introl eq_refl)) as [H | H].
        + subst b. rewrite clt_irrefl in E1 by assumption. discriminate.
        + specialize (Hb a H).
          assert (clt a a = true) by (apply (clt_trans a b a); assumption).
          rewrite clt_irrefl in H0 by assumption. discriminate.
      - destruct (clt b a) eqn:E2; [|now apply clt_connex].
        exfalso. destruct (proj2 (Hin b) (or_introl eq_refl)) as [H | H].
        + subst b. rewrite clt_irrefl in E2 by assumption. discriminate.
        + specialize (Ha b H).
          assert (clt b b = true) by (apply (clt_trans b a b); assumption).
          rewrite clt_irrefl in H0 by assumption. discriminate. }
    subst b. f_equal. apply IH; auto.
    intros k. split; intros Hk.
    + destruct (proj1 (Hin k) (or_intror Hk)) as [H | H]; [|exact H].
      subst k. specialize (Ha a Hk).
      rewrite clt_irrefl in Ha by assumption. discriminate.
    + destruct (proj2 (Hin k) (or_intror Hk)) as [H | H]; [|exact H].
      subst k. specialize (Hb a Hk).
      rewrite clt_irrefl in Hb by assumption. discriminate.
Qed.

(** X10.  The coordinates returned depend only on the set of input
    points: two inputs with the same points, in any order and with any
    repetitions, give the same [x_unique] and [y_unique]. *)
Theorem prepare_for_interpolation_unique_order_independent :
  forall (x y x' y' : list (list float)) (U U' : list float)
         (xu yu Uu xu' yu' Uu' : list float),
    same_shape x y = true ->
    Forall is_num (flatten x) -> Forall is_num (flatten y) ->
    same_shape x' y' = true ->
    Forall is_num (flatten x') -> Forall is_num (flatten y') ->
    (forall p, In p (combine (flatten x) (flatten y))
               <-> In p (combine (flatten x') (flatten y'))) ->
    prepare_for_interpolation_unique x y U = Ok (xu, yu, Uu) ->
    prepare_for_interpolation_unique x' y' U' = Ok (xu', yu', Uu') ->
    xu = xu' /\ yu = yu'.
Proof.
  intros x y x' y' U U' xu yu Uu xu' yu' Uu'
         Hshape Hx Hy Hshape' Hx' Hy' Hsame Hrun Hrun'.
  destruct (unique_run_positions x y U Hshape Hx Hy)
    as (Heq & Hsorted & Hgood & _ & Hin).
  destruct (unique_run_positions x' y' U' Hshape' Hx' Hy')
    as (Heq' & Hsorted' & Hgood' & _ & Hin').
  rewrite Heq in Hrun. apply bind_Ok_inv in Hrun as (V & _ & Hrun).
  rewrite Heq' in Hrun'. apply bind_Ok_inv in Hrun' as (V' & _ & Hrun').
  injection Hrun as <- <- _. injection Hrun' as <- <- _.
  assert (Hks : map fst (flagged cne None
                  (argsort clt (combine (flatten x) (flatten y))))
                = map fst (flagged cne None
                  (argsort clt (combine (flatten x') (flatten y'))))).
  { apply key_lt_sorted_ext; auto.
    intros k. rewrite Hin, Hin'. apply Hsame. }
  now rewrite Hks.
Qed.

Lemma prepare_for_interpolation_unique_order_independent_witness :
  [fl 1 1; fl 2 1] = [fl 1 1; fl 2 1] /\ [fl 5 1; fl 0 1] = [fl 5 1; fl 0 1].
Proof.
  apply (prepare_for_interpolation_unique_order_independent
           [[fl 2 1; fl 1 1; fl 2 1]] [[fl 0 1; fl 5 1; fl 0 1]]
           [[fl 1 1; fl 2 1]] [[fl 5 1; fl 0 1]]
           [fl 10 1; fl 11 1; fl 12 1] [fl 20 1; fl 21 1]
           [fl 1 1; fl 2 1] [fl 5 1; fl 0 1] [fl 11 1; fl 10 1]
           [fl 1 1; fl 2 1] [fl 5 1; fl 0 1] [fl 20 1; fl 21 1]).
  - reflexivity.
  - each number.
  - each number.
  - reflexivity.
  - each number.
  - each number.
  - intros p. simpl. tauto.
  - run.
  - run.
Defined.

(* ================================================================= *)
(** ** [load_fld] *)

Lemma first_change_from_spec (x0 : float) (x : list float) (i k : nat) :
  first_change_from x0 i x = Some k ->
  (i <= k)%nat /\
  (exists X, nth_error x (k - i) = Some X /\ fne X x0 = true) /\
  (forall j Y, (j < k - i)%nat -> nth_error x j = Some Y -> fne Y x0 = false).
Proof.
  revert i. induction x as [|X x IH]; intros i; cbn [first_change_from];
    [discriminate|].
  destruct (fne X x0) eqn:E.
  - intros [= <-]. rewrite Nat.sub_diag. split; [lia|]. split.
    + exists X. split; [reflexivity | exact E].
    + intros j Y Hj. lia.
  - intros H. apply IH in H as (Hle & (X' & HX' & HneX') & Hbefore).
    split; [lia|]. split.
    + exists X'. replace (k - i)%nat with (S (k - S i)) by lia. auto.
    + intros [|j] Y Hj HY; cbn [nth_error] in HY.
      * injection HY as <-. exact E.
      * apply (Hbefore j Y); [lia | exact HY].
Qed.

Lemma first_change_from_None (x0 : float) (x : list float) (i : nat) :
  Forall (fun X => fne X x0 = false) x -> first_change_from x0 i x = None.
Proof.
  intros H. revert i. induction H as [|X x HX _ IH]; intros i;
    cbn [first_change_from]; [reflexivity|]. now rewrite HX.
Qed.

Lemma chunks_spec {A} (rows cols : nat) (a : list A) :
  (rows * cols)%nat = length a ->
  concat (chunks rows cols a) = a /\
  length (chunks rows cols a) = rows /\
  Forall (fun r => length r = cols) (chunks rows cols a).
Proof.
  revert a. induction rows as [|r IH]; intros a Hlen; cbn [chunks].
  - destruct a; [|discriminate]. repeat split. constructor.
  - destruct (IH (skipn cols a)) as (Hc & Hl & Hf).
    { rewrite length_skipn. simpl in Hlen. lia. }
    cbn [concat length]. rewrite Hc, Hl, firstn_skipn.
    repeat split. constructor; [|exact Hf].
    rewrite length_firstn. simpl in Hlen. lia.
Qed.

Lemma length_fld_scan (data : list row4) (plot_axes : string) :
  length (fld_scan data plot_axes) = length data.
Proof.
  unfold fld_scan. destruct (contains _ plot_axes); apply length_map.
Qed.

Lemma reshape_Done {A} (rows cols : nat) (a : list A) (g : list (list A)) :
  reshape rows cols a = Done g ->
  (rows * cols)%nat = length a /\ concat g = a /\ length g = rows /\
  Forall (fun r => length r = cols) g.
Proof.
  unfold reshape, np_reshape.
  destruct (Nat.eqb (rows * cols) (length a)) eqn:E; [|discriminate].
  apply Nat.eqb_eq in E. intros [= <-]. split; [exact E|].
  now apply chunks_spec.
Qed.

Lemma reshape_Fail {A} (rows cols : nat) (a : list A) :
  (rows * cols)%nat <> length a ->
  reshape rows cols a = Fail (NumpyError ValueError).
Proof.
  intros H. unfold reshape, np_reshape.
  destruct (Nat.eqb (rows * cols) (length a)) eqn:E; [|reflexivity].
  apply Nat.eqb_eq in E. contradiction.
Qed.

(** X11.  What [load_fld] returns, when it returns: the plane name is
    "xy", "xz" or "yz"; the rows of the three grids all have the length
    [ysize] of the first run of equal entries of the scanned column; and
    the grids, read row by row, are the two columns of the plane and the
    column magE of the file. *)
Theorem load_fld_grids :
  forall (data : list row4) (plot_axes : string)
         (X Y E : list (list float)),
    load_fld data plot_axes = Done (X, Y, E) ->
    exists gx gy ysize,
      fld_columns data plot_axes = Some (gx, gy) /\
      first_change (fld_scan data plot_axes) = Some ysize /\
      (0 < ysize)%nat /\
      (length E * ysize)%nat = length data /\
      length X = length E /\ length Y = length E /\
      concat X = gx /\ concat Y = gy /\ concat E = map col_magE data /\
      Forall (fun r => length r = ysize) X /\
      Forall (fun r => length r = ysize) Y /\
      Forall (fun r => length r = ysize) E /\
      (forall x0 j Xj,
          nth_error (fld_scan data plot_axes) 0 = Some x0 ->
          nth_error (fld_scan data plot_axes) j = Some Xj ->
          ((j < ysize)%nat -> fne Xj x0 = false) /\
          (j = ysize -> fne Xj x0 = true)).
Proof.
  intros data plot_axes X Y E. unfold load_fld, fld_sizes.
  destruct (Nat.ltb (length data) 2); [discriminate|].
  fold (fld_scan data plot_axes).
  destruct (first_change (fld_scan data plot_axes)) as [[|ys]|] eqn:Hfc;
    try discriminate.
  assert (Hrun : forall x0 j Xj,
             nth_error (fld_scan data plot_axes) 0 = Some x0 ->
             nth_error (fld_scan data plot_axes) j = Some Xj ->
             ((j < S ys)%nat -> fne Xj x0 = false) /\
             (j = S ys -> fne Xj x0 = true)).
  { intros x0 j Xj H0 Hj. unfold first_change in Hfc.
    destruct (fld_scan data plot_axes) as [|x0' scan] eqn:Hscan;
      [discriminate|]. cbn [nth_error] in H0. injection H0 as ->.
    apply first_change_from_spec in Hfc as (_ & (Xc & HXc & Hne) & Hbefore).
    rewrite Nat.sub_0_r in *. split.
    - intros Hlt. now apply (Hbefore j Xj).
    - intros ->. congruence. }
  fold (fld_columns data plot_axes).
  destruct (fld_columns data plot_axes) as [[gx gy]|].
  - destruct (reshape _ _ gx) as [X'|] eqn:EX; [|discriminate].
    destruct (reshape _ _ gy) as [Y'|] eqn:EY; [|discriminate].
    destruct (reshape _ _ (map col_magE data)) as [E'|] eqn:EE;
      [|discriminate].
    intros [= <- <- <-].
    apply reshape_Done in EX as (_ & HX & HlX & HfX).
    apply reshape_Done in EY as (_ & HY & HlY & HfY).
    apply reshape_Done in EE as (Hn & HE & HlE & HfE).
    rewrite !length_map in *.
    exists gx, gy, (S ys).
    split; [reflexivity|]. split; [reflexivity|]. split; [lia|].
    split; [lia|]. split; [congruence|]. split; [congruence|].
    repeat (split; [assumption|]). exact Hrun.
  - destruct (reshape _ _ (map col_magE data)); discriminate.
Qed.

Lemma load_fld_grids_witness :
  exists gx gy ysize,
    fld_columns
      [(fl 0 1, fl 0 1, fl 0 1, fl 5 1); (fl 0 1, fl 1 1, fl 0 1, fl 6 1);
       (fl 1 1, fl 0 1, fl 0 1, fl 7 1); (fl 1 1, fl 1 1, fl 0 1, fl 8 1)]
      "xy" = Some (gx, gy) /\
    first_change
      (fld_scan
         [(fl 0 1, fl 0 1, fl 0 1, fl 5 1); (fl 0 1, fl 1 1, fl 0 1, fl 6 1);
          (fl 1 1, fl 0 1, fl 0 1, fl 7 1); (fl 1 1, fl 1 1, fl 0 1, fl 8 1)]
         "xy") = Some ysize.
Proof.
  destruct (load_fld_grids
              [(fl 0 1, fl 0 1, fl 0 1, fl 5 1);
               (fl 0 1, fl 1 1, fl 0 1, fl 6 1);
               (fl 1 1, fl 0 1, fl 0 1, fl 7 1);
               (fl 1 1, fl 1 1, fl 0 1, fl 8 1)] "xy"
              [[fl 0 1; fl 0 1]; [fl 1 1; fl 1 1]]
              [[fl 0 1; fl 1 1]; [fl 0 1; fl 1 1]]
              [[fl 5 1; fl 6 1]; [fl 7 1; fl 8 1]])
    as (gx & gy & ysize & H1 & H2 & _).
  - vm_compute. reflexivity.
  - exists gx, gy, ysize. split; [exact H1 | exact H2].
Defined.

Lemma fne_refl_num (c : Qc) : fne (num c) (num c) = false.
Proof.
  unfold fne. now rewrite (proj2 (feq_num c c) eq_refl).
Qed.

(** X12.  A scanned column that never changes leaves the sizes
    unassigned: when the file has at least two rows and every entry of
    the scanned coordinate is the same number the call ends in
    [UnboundLocalError], for every plane name. *)
Theorem load_fld_constant_column :
  forall (data : list row4) (plot_axes : string) (c : Qc),
    (2 <= length data)%nat ->
    Forall (eq (num c)) (fld_scan data plot_axes) ->
    load_fld data plot_axes = Fail UnboundLocalError.
Proof.
  intros data plot_axes c Hrows Hconst. unfold load_fld, fld_sizes.
  apply Nat.ltb_ge in Hrows. rewrite Hrows.
  fold (fld_scan data plot_axes).
  assert (Hfc : first_change (fld_scan data plot_axes) = None).
  { unfold first_change.
    destruct (fld_scan data plot_axes) as [|x0 scan] eqn:E; [reflexivity|].
    inversion Hconst as [|? ? Hx0 _]; subst x0.
    apply first_change_from_None.
    eapply Forall_impl; [|exact Hconst].
    intros X <-. apply fne_refl_num. }
  now rewrite Hfc.
Qed.

Lemma load_fld_constant_column_witness :
  load_fld [(fl 2 1, fl 0 1, fl 0 1, fl 5 1);
            (fl 2 1, fl 1 1, fl 0 1, fl 6 1)] "xz"
  = Fail UnboundLocalError.
Proof.
  apply (load_fld_constant_column
           [(fl 2 1, fl 0 1, fl 0 1, fl 5 1);
            (fl 2 1, fl 1 1, fl 0 1, fl 6 1)] "xz" (qc 2 1)).
  - cbn [length]. lia.
  - repeat constructor.
Defined.

(** X13.  A not-a-number at the head of the scanned column differs from
    itself, so the loop breaks at index 0 and the division for [xsize]
    raises [ZeroDivisionError], whatever the rest of a file of at least
    two rows holds. *)
Theorem load_fld_nan_head :
  forall (data : list row4) (plot_axes : string),
    (2 <= length data)%nat ->
    nth_error (fld_scan data plot_axes) 0 = Some nan ->
    load_fld data plot_axes = Fail ZeroDivisionError.
Proof.
  intros data plot_axes Hrows H. unfold load_fld, fld_sizes.
  apply Nat.ltb_ge in Hrows. rewrite Hrows.
  fold (fld_scan data plot_axes).
  destruct (fld_scan data plot_axes) as [|x0 scan]; [discriminate|].
  cbn [nth_error] in H. injection H as ->. reflexivity.
Qed.

Lemma load_fld_nan_head_witness :
  load_fld [(fl 2 1, nan, fl 0 1, fl 5 1);
            (fl 2 1, fl 1 1, fl 0 1, fl 6 1)] "yz"
  = Fail ZeroDivisionError.
Proof.
  apply (load_fld_nan_head
           [(fl 2 1, nan, fl 0 1, fl 5 1);
            (fl 2 1, fl 1 1, fl 0 1, fl 6 1)] "yz").
  - cbn [length]. lia.
  - reflexivity.
Defined.

(** X14.  A file whose number of rows is not a multiple of the length of
    the first run is refused by [reshape] with [ValueError]; no grid is
    truncated or padded. *)
Theorem load_fld_ragged :
  forall (data : list row4) (plot_axes : string) (ysize : nat),
    first_change (fld_scan data plot_axes) = Some ysize ->
    ysize <> 0%nat ->
    (length data mod ysize)%nat <> 0%nat ->
    load_fld data plot_axes = Fail (NumpyError ValueError).
Proof.
  intros data plot_axes ysize Hfc Hys Hmod.
  assert (Hrows : Nat.ltb (length data) 2 = false).
  { apply Nat.ltb_ge. rewrite <- (length_fld_scan data plot_axes).
    unfold first_change in Hfc.
    destruct (fld_scan data plot_axes) as [|x0 scan]; [discriminate|].
    apply first_change_from_spec in Hfc as (_ & (X & HX & _) & _).
    rewrite Nat.sub_0_r in HX.
    assert (Hlt : (ysize < length (x0 :: scan))%nat).
    { apply nth_error_Some. congruence. }
    lia. }
  unfold load_fld, fld_sizes. rewrite Hrows.
  fold (fld_scan data plot_axes). rewrite Hfc.
  destruct ysize as [|ys]; [congruence|]. rewrite length_map.
  assert (Hne : (length data / S ys * S ys)%nat <> length data).
  { intros H. apply Hmod. apply Nat.Div0.div_exact. lia. }
  assert (Hre : forall f : row4 -> float,
             reshape (length data / S ys) (S ys) (map f data)
             = Fail (NumpyError ValueError)).
  { intros f. apply reshape_Fail. now rewrite length_map. }
  destruct (String.eqb plot_axes "xy"); [now rewrite Hre|].
  destruct (String.eqb plot_axes "xz"); [now rewrite Hre|].
  destruct (String.eqb plot_axes "yz"); now rewrite Hre.
Qed.

Lemma load_fld_ragged_witness :
  load_fld [(fl 0 1, fl 0 1, fl 0 1, fl 5 1); (fl 0 1, fl 1 1, fl 0 1, fl 6 1);
            (fl 1 1, fl 0 1, fl 0 1, fl 7 1)] "xy"
  = Fail (NumpyError ValueError).
Proof.
  apply (load_fld_ragged
           [(fl 0 1, fl 0 1, fl 0 1, fl 5 1); (fl 0 1, fl 1 1, fl 0 1, fl 6 1);
            (fl 1 1, fl 0 1, fl 0 1, fl 7 1)] "xy" 2).
  - vm_compute. reflexivity.
  - discriminate.
  - vm_compute. discriminate.
Defined.

(* ================================================================= *)
(** ** [prepare_for_interpolation]: which coordinates count as constant *)

Lemma flt_sort_num (a b : float) :
  is_num a -> is_num b -> flt_sort a b = flt a b.
Proof.
  intros [p ->] [q ->]. unfold flt_sort. cbn [is_nan andb].
  apply orb_false_r.
Qed.

Lemma flt_sort_irrefl (a : float) : is_num a -> flt_sort a a = false.
Proof. intros Ha. rewrite flt_sort_num by assumption. apply flt_irrefl. Qed.

Lemma flt_sort_trans (a b c : float) :
  is_num a -> is_num b -> is_num c ->
  flt_sort a b = true -> flt_sort b c = true -> flt_sort a c = true.
Proof.
  intros Ha Hb Hc. rewrite !flt_sort_num by assumption. apply flt_trans.
Qed.

Lemma flt_sort_connex (a b : float) :
  is_num a -> is_num b ->
  flt_sort a b = false -> flt_sort b a = false -> a = b.
Proof.
  intros Ha Hb. rewrite !flt_sort_num by assumption. now apply flt_connex.
Qed.

Lemma fne_spec (a b : float) :
  is_num a -> is_num b -> (fne a b = false <-> a = b).
Proof.
  intros [p ->] [q ->]. unfold fne. rewrite negb_false_iff, feq_num.
  split; [now intros -> | apply num_inj].
Qed.

(** [unique] has one entry exactly when the array is non-empty and all
    its entries are the same. *)
Lemma np_unique_singleton (l : list float) :
  Forall is_num l ->
  (length (np_unique l) = 1%nat <-> exists d, In d l /\ Forall (eq d) l).
Proof.
  intros Hl.
  destruct (np_unique_index_spec flt_sort fne is_num flt_sort_irrefl
              flt_sort_trans flt_sort_connex fne_spec l Hl)
    as (Hsorted & Hfirst & Hall).
  unfold np_unique, np_unique_index. cbn [fst].
  set (kept := flagged fne None (argsort flt_sort l)) in *.
  assert (Hmem : forall k, In k (map fst kept) -> In k l).
  { intros k Hk. apply in_map_iff in Hk as ([k' i] & <- & Hin).
    destruct (Hfirst _ _ Hin) as [Hnth _]. eapply nth_error_In; eauto. }
  split.
  - intros Hlen. destruct (map fst kept) as [|d [|d' ks]] eqn:E;
      try discriminate.
    exists d. split; [apply Hmem; now left|].
    apply Forall_forall. intros a Ha. apply Hall in Ha.
    destruct Ha as [-> | []]. reflexivity.
  - intros (d & Hd & Hsame). rewrite Forall_forall in Hsame.
    destruct (map fst kept) as [|a [|b ks]] eqn:E.
    + exfalso. apply (Hall d Hd).
    + reflexivity.
    + exfalso. inversion Hsorted as [|? ? _ Hab]; subst.
      inversion Hab as [|? ? Hlt _]; subst. unfold key_lt in Hlt.
      assert (a = d) by (symmetry; apply Hsame, Hmem; now left).
      assert (b = d) by (symmetry; apply Hsame, Hmem; right; now left).
      subst a b. rewrite flt_sort_irrefl in Hlt; [discriminate|].
      rewrite Forall_forall in Hl. now apply Hl.
Qed.

Lemma np_diff_nth (a : list float) (i : nat) :
  nth_error (np_diff a) i =
  match nth_error a (S i), nth_error a i with
  | Some b, Some c => Some (b - c)%float
  | _, _ => None
  end.
Proof.
  unfold np_diff. rewrite nth_error_zip_with.
  destruct a as [|a0 a]; [now destruct i|]. reflexivity.
Qed.

Lemma np_diff_num (a : list float) :
  Forall is_num a -> Forall is_num (np_diff a).
Proof.
  intros Ha. apply Forall_nth_error. intros i d Hd.
  rewrite np_diff_nth in Hd.
  destruct (nth_error a (S i)) as [b|] eqn:Eb; [|discriminate].
  destruct (nth_error a i) as [c|] eqn:Ec; [|discriminate].
  injection Hd as <-. rewrite Forall_forall in Ha.
  apply lift2_num; apply Ha; eapply nth_error_In; eauto.
Qed.

(** X15.  A coordinate counts as constant exactly when there are at
    least two nodes and all consecutive differences of the coordinate are
    the same number [d]: the test is for a constant step, so a coordinate
    that grows by the same amount from node to node counts as constant,
    and with fewer than two nodes no coordinate does. *)
Theorem constant_coordinate_constant_step :
  forall (nodes : list node) (k : nat),
    Forall is_num (map (coord k) nodes) ->
    (constant_coordinate nodes k = true <->
     (2 <= length nodes)%nat /\
     exists d,
       forall i a b,
         nth_error (map (coord k) nodes) i = Some a ->
         nth_error (map (coord k) nodes) (S i) = Some b ->
         (b - a)%float = d).
Proof.
  intros nodes k Hnum. unfold constant_coordinate.
  set (col := map (coord k) nodes) in *.
  assert (Hlen : length col = length nodes) by apply length_map.
  rewrite Nat.eqb_eq, (np_unique_singleton _ (np_diff_num col Hnum)).
  split.
  - intros (d & Hd & Hsame). rewrite Forall_forall in Hsame. split.
    + apply In_nth_error in Hd as [i Hi]. rewrite np_diff_nth in Hi.
      destruct (nth_error col (S i)) eqn:E; [|discriminate].
      assert (S i < length col)%nat by (apply nth_error_Some; congruence).
      lia.
    + exists d. intros i a b Ha Hb. symmetry. apply Hsame.
      apply nth_error_In with i. now rewrite np_diff_nth, Hb, Ha.
  - intros (Hn & d & Hstep).
    destruct (nth_error_defined col 0) as [a Ha]; [lia|].
    destruct (nth_error_defined col 1) as [b Hb]; [lia|].
    exists d. split.
    + apply nth_error_In with 0%nat.
      rewrite np_diff_nth, Hb, Ha. f_equal. now apply (Hstep 0%nat).
    + apply Forall_nth_error. intros i x Hx. rewrite np_diff_nth in Hx.
      destruct (nth_error col (S i)) as [b'|] eqn:Eb; [|discriminate].
      destruct (nth_error col i) as [a'|] eqn:Ea; [|discriminate].
      injection Hx as <-. symmetry. now apply (Hstep i).
Qed.

Lemma constant_coordinate_constant_step_witness :
  constant_coordinate
    [(fl 0 1, fl 0 1, fl 0 1); (fl 1 1, fl 0 1, fl 5 1);
     (fl 2 1, fl 1 1, fl 0 1); (fl 3 1, fl 1 1, fl 7 1)] 0 = true.
Proof.
  apply (constant_coordinate_constant_step
           [(fl 0 1, fl 0 1, fl 0 1); (fl 1 1, fl 0 1, fl 5 1);
            (fl 2 1, fl 1 1, fl 0 1); (fl 3 1, fl 1 1, fl 7 1)] 0).
  - each number.
  - split; [simpl; lia|]. exists (fl 1 1).
    intros [|[|[|[|i]]]] a b Ha Hb; simpl in Ha, Hb; try discriminate;
      injection Ha as <-; injection Hb as <-; run.
Defined.

(* ================================================================= *)
(** ** [prepare_for_interpolation]: the filter of the marker sequence *)

Lemma where_zero_from_In (l : list Z) (i z : Z) :
  In z (where_zero_from i l) <->
  (i <= z)%Z /\ nth_error l (Z.to_nat (z - i)) = Some 0%Z.
Proof.
  revert i. induction l as [|e l IH]; intros i; cbn [where_zero_from].
  - split; [contradiction|]. intros [_ H].
    destruct (Z.to_nat (z - i)); discriminate.
  - assert (Hrec : In z (where_zero_from (i + 1) l) <->
                   (i < z)%Z /\
                   nth_error (e :: l) (Z.to_nat (z - i)) = Some 0%Z).
    { rewrite IH. split; intros [Hle Hnth]; (split; [lia|]).
      - replace (Z.to_nat (z - i)) with (S (Z.to_nat (z - (i + 1)))) by lia.
        exact Hnth.
      - replace (Z.to_nat (z - i)) with (S (Z.to_nat (z - (i + 1))))
          in Hnth by lia.
        exact Hnth. }
    destruct (Z.eqb_spec e 0) as [-> | Hne].
    + cbn [In]. rewrite Hrec. split.
      * intros [<- | [Hlt Hnth]]; [|split; [lia | exact Hnth]].
        split; [lia|]. now rewrite Z.sub_diag.
      * intros [Hle Hnth].
        destruct (Z.eq_dec i z) as [-> | Hiz]; [now left|].
        right. split; [lia | exact Hnth].
    + rewrite Hrec. split; intros [Hlt Hnth]; (split; [|exact Hnth]);
        [lia|].
      destruct (Z.eq_dec i z) as [-> | Hiz]; [|lia].
      rewrite Z.sub_diag in Hnth. cbn [Z.to_nat nth_error] in Hnth. congruence.
Qed.

Lemma In_where_zero (elements : list Z) (z : Z) :
  In z (where_zero elements) <-> zero_at elements z = true.
Proof.
  unfold where_zero, zero_at. rewrite where_zero_from_In, Z.sub_0_r.
  destruct (Z.ltb_spec z 0).
  - split; [lia | discriminate].
  - destruct (nth_error elements (Z.to_nat z)) as [e|].
    + rewrite Z.eqb_eq. split; [intros [_ [= ->]]; reflexivity|].
      intros ->. auto.
    + split; [intros [_ Hn]; discriminate | discriminate].
Qed.

(** A position is handed to [delete] exactly when the entry at it does not
    survive. *)
Lemma marker_positions_survives (elements : list Z) (i : Z) :
  existsb (Z.eqb i) (marker_positions elements) = negb (survives elements i).
Proof.
  apply eq_true_iff_eq. unfold survives. rewrite negb_involutive.
  rewrite existsb_exists, !orb_true_iff, <- !In_where_zero.
  unfold marker_positions. split.
  - intros (z & Hz & Heq). apply Z.eqb_eq in Heq. subst z.
    rewrite !in_app_iff, !in_map_iff in Hz.
    destruct Hz as [H | [(z & <- & H) | [(z & <- & H) | [(z & <- & H)
                    | (z & <- & H)]]]].
    + auto.
    + left. left. left. right.
      now replace (z - 3 + 3)%Z with z by lia.
    + left. left. right. now replace (z - 2 + 2)%Z with z by lia.
    + left. right. now replace (z - 1 + 1)%Z with z by lia.
    + right. now replace (z + 1 - 1)%Z with z by lia.
  - intros H. exists i. split; [|apply Z.eqb_refl].
    rewrite !in_app_iff, !in_map_iff.
    destruct H as [[[[H | H] | H] | H] | H].
    + now left.
    + right. left. exists (i + 3)%Z. split; [lia | exact H].
    + right. right. left. exists (i + 2)%Z. split; [lia | exact H].
    + right. right. right. left. exists (i + 1)%Z. split; [lia | exact H].
    + right. right. right. right. exists (i - 1)%Z. split; [lia | exact H].
Qed.

Lemma delete_from_filter (obj arr : list Z) (n : nat) :
  delete_from (Z.of_nat n) arr obj
  = map fst (filter (fun p => negb (existsb (Z.eqb (Z.of_nat (snd p))) obj))
                    (enumerate_from n arr)).
Proof.
  revert n. induction arr as [|e arr IH]; intros n; [reflexivity|].
  rewrite enumerate_from_cons. cbn [delete_from filter snd].
  replace (Z.of_nat n + 1)%Z with (Z.of_nat (S n)) by lia. rewrite IH.
  destruct (existsb (Z.eqb (Z.of_nat n)) obj); reflexivity.
Qed.

(** X16.  The filter keeps an entry of [elements] exactly when no zero
    stands at its own position, at one of the three positions after it or
    at the position before it; the values 2, 3, 3 and 6 of the marker are
    never looked at.  The first two survivors are dropped and the rest is
    cut in rows of six. *)
Theorem structured_elements_survivors :
  forall elements : list Z,
    structured_elements elements
    = (let flat :=
         skipn 2 (map fst (filter (fun p => survives elements
                                              (Z.of_nat (snd p)))
                                  (enumerate_from 0 elements))) in
       np_reshape (length flat / 6) 6 flat).
Proof.
  intros elements. unfold structured_elements. cbv zeta.
  fold (marker_positions elements). unfold np_delete.
  change 0%Z with (Z.of_nat 0). rewrite delete_from_filter.
  rewrite (filter_ext _ (fun p => survives elements (Z.of_nat (snd p))));
    [reflexivity|].
  intros p. now rewrite marker_positions_survives, negb_involutive.
Qed.

Lemma zero_at_app_after (pre l : list Z) (k : nat) :
  zero_at (pre ++ l) (Z.of_nat (length pre) + Z.of_nat k) = is_zero_at l k.
Proof.
  unfold zero_at, is_zero_at.
  destruct (Z.ltb_spec (Z.of_nat (length pre) + Z.of_nat k) 0); [lia|].
  replace (Z.to_nat (Z.of_nat (length pre) + Z.of_nat k))
    with (length pre + k)%nat by lia.
  rewrite nth_error_app2 by lia.
  now replace (length pre + k - length pre)%nat with k by lia.
Qed.

Lemma zero_at_app_before (pre l : list Z) :
  zero_at (pre ++ l) (Z.of_nat (length pre) - 1) = is_zero_at (rev pre) 0.
Proof.
  unfold zero_at, is_zero_at.
  destruct (rev pre) as [|e r] eqn:E.
  - apply (f_equal (@rev Z)) in E. rewrite rev_involutive in E. subst pre.
    reflexivity.
  - apply (f_equal (@rev Z)) in E. rewrite rev_involutive in E. subst pre.
    cbn [rev nth_error]. rewrite length_app. cbn [length].
    destruct (Z.ltb_spec (Z.of_nat (length (rev r) + 1) - 1) 0); [lia|].
    replace (Z.to_nat (Z.of_nat (length (rev r) + 1) - 1))
      with (length (rev r)) by lia.
    rewrite <- app_assoc. rewrite nth_error_app2 by lia.
    now rewrite Nat.sub_diag.
Qed.

(** [delete] at the marker positions is the walk. *)
Lemma delete_from_walk (l pre : list Z) :
  delete_from (Z.of_nat (length pre)) l (marker_positions (pre ++ l))
  = walk (is_zero_at (rev pre) 0) l.
Proof.
  revert pre. induction l as [|e t IH]; intros pre; [reflexivity|].
  cbn [delete_from walk].
  rewrite marker_positions_survives. unfold survives.
  rewrite negb_involutive.
  replace (Z.of_nat (length pre)) with (Z.of_nat (length pre) + Z.of_nat 0)%Z
    at 1 by lia.
  replace (Z.of_nat (length pre) + 3)%Z
    with (Z.of_nat (length pre) + Z.of_nat 3)%Z by lia.
  replace (Z.of_nat (length pre) + 2)%Z
    with (Z.of_nat (length pre) + Z.of_nat 2)%Z by lia.
  replace (Z.of_nat (length pre) + 1)%Z
    with (Z.of_nat (length pre) + Z.of_nat 1)%Z at 1 by lia.
  rewrite !zero_at_app_after, zero_at_app_before.
  change (is_zero_at (e :: t) 0) with (Z.eqb e 0).
  change (is_zero_at (e :: t) 3) with (is_zero_at t 2).
  change (is_zero_at (e :: t) 2) with (is_zero_at t 1).
  change (is_zero_at (e :: t) 1) with (is_zero_at t 0).
  assert (Hrec : delete_from (Z.of_nat (length pre) + 1) t
                   (marker_positions (pre ++ e :: t))
                 = walk (Z.eqb e 0) t).
  { replace (pre ++ e :: t) with ((pre ++ [e]) ++ t)
      by (rewrite <- app_assoc; reflexivity).
    replace (Z.of_nat (length pre) + 1)%Z
      with (Z.of_nat (length (pre ++ [e])))
      by (rewrite length_app; cbn [length]; lia).
    rewrite IH, rev_app_distr. reflexivity. }
  rewrite Hrec. reflexivity.
Qed.

Lemma np_delete_walk (elements : list Z) :
  np_delete elements (marker_positions elements) = walk false elements.
Proof. exact (delete_from_walk elements []). Qed.

Lemma walk_keep (e : Z) (t : list Z) :
  Z.eqb e 0 = false ->
  is_zero_at t 2 = false -> is_zero_at t 1 = false ->
  is_zero_at t 0 = false ->
  walk false (e :: t) = e :: walk false t.
Proof.
  intros He H2 H1 H0. cbn [walk]. now rewrite He, H2, H1, H0.
Qed.

Lemma walk_marker (t : list Z) :
  walk false (2 :: 3 :: 3 :: 0 :: 6 :: t)%Z = walk false t.
Proof.
  cbn [walk]. change (Z.eqb 2 0) with false. change (Z.eqb 3 0) with false.
  change (Z.eqb 0 0) with true. change (Z.eqb 6 0) with false.
  change (is_zero_at (3 :: 3 :: 0 :: 6 :: t)%Z 2) with true.
  change (is_zero_at (3 :: 0 :: 6 :: t)%Z 1) with true.
  change (is_zero_at (0 :: 6 :: t)%Z 0) with true.
  cbn [orb]. rewrite !orb_true_r. reflexivity.
Qed.

(** The walk over one element: the markers go, the six node numbers
    stay. *)
Lemma walk_element_block (row rest : list Z) :
  element_row row ->
  (rest = [] \/ exists rest', rest = (2 :: 3 :: 3 :: rest')%Z) ->
  walk false (element_block row ++ rest) = row ++ walk false rest.
Proof.
  intros [Hlen Hnz] Hrest.
  destruct row as [|r1 [|r2 [|r3 [|r4 [|r5 [|r6 [|r7 row]]]]]]];
    try discriminate.
  repeat match goal with
         | H : Forall _ (_ :: _) |- _ => inversion H; clear H; subst
         end.
  repeat match goal with
         | H : ?r <> 0%Z |- _ => apply Z.eqb_neq in H
         end.
  unfold element_block. cbn [app]. rewrite walk_marker.
  assert (Hr : is_zero_at rest 0 = false /\ is_zero_at rest 1 = false /\
               is_zero_at rest 2 = false).
  { destruct Hrest as [-> | [rest' ->]]; repeat split; reflexivity. }
  destruct Hr as (Hr0 & Hr1 & Hr2).
  rewrite !walk_keep; try assumption; try reflexivity;
    unfold is_zero_at; cbn [nth_error]; assumption.
Qed.

Lemma element_blocks_head (rows : list (list Z)) :
  concat (map element_block rows) = [] \/
  exists rest', concat (map element_block rows) = (2 :: 3 :: 3 :: rest')%Z.
Proof.
  destruct rows as [|row rows]; [now left|]. right.
  cbn [map concat]. unfold element_block at 1. cbn [app]. eauto.
Qed.

Lemma walk_element_blocks (rows : list (list Z)) :
  Forall element_row rows ->
  walk false (concat (map element_block rows)) = concat rows.
Proof.
  induction 1 as [|row rows Hrow _ IH]; [reflexivity|].
  cbn [map concat]. rewrite walk_element_block; auto.
  - now rewrite IH.
  - apply element_blocks_head.
Qed.

Lemma chunks_concat {A} (cols : nat) (rows : list (list A)) :
  Forall (fun r => length r = cols) rows ->
  chunks (length rows) cols (concat rows) = rows.
Proof.
  induction 1 as [|row rows Hrow _ IH]; [reflexivity|].
  cbn [length chunks concat].
  rewrite firstn_app, skipn_app, Hrow, Nat.sub_diag, firstn_all2 by lia.
  rewrite skipn_all2 by lia. cbn [firstn skipn app].
  now rewrite app_nil_r, IH.
Qed.

Lemma length_concat_rows {A} (cols : nat) (rows : list (list A)) :
  Forall (fun r => length r = cols) rows ->
  length (concat rows) = (length rows * cols)%nat.
Proof.
  induction 1 as [|row rows Hrow _ IH]; [reflexivity|].
  cbn [concat length]. rewrite length_app, IH, Hrow. lia.
Qed.

Lemma structured_elements_rows (d0 d1 : Z) (rows : list (list Z)) :
  d0 <> 0%Z -> d1 <> 0%Z ->
  Forall element_row rows ->
  structured_elements (connectivity d0 d1 rows) = Ok rows.
Proof.
  intros Hd0 Hd1 Hrows.
  unfold structured_elements. cbv zeta.
  fold (marker_positions (connectivity d0 d1 rows)).
  rewrite np_delete_walk. unfold connectivity.
  apply Z.eqb_neq in Hd0, Hd1.
  assert (Hwalk : walk false (d0 :: d1 :: concat (map element_block rows))
                  = d0 :: d1 :: concat rows).
  { rewrite <- (walk_element_blocks rows Hrows).
    destruct (element_blocks_head rows) as [Hrest | [rest' Hrest]];
      rewrite Hrest; cbn [walk is_zero_at nth_error];
      rewrite Hd0, Hd1; reflexivity. }
  rewrite Hwalk. cbn [skipn].
  assert (H6 : Forall (fun r : list Z => length r = 6%nat) rows).
  { eapply Forall_impl; [|exact Hrows]. now intros r [Hr _]. }
  unfold np_reshape. rewrite (length_concat_rows 6 rows H6).
  rewrite Nat.div_mul by discriminate. rewrite Nat.eqb_refl.
  now rewrite chunks_concat.
Qed.

(** X17.  On a well-formed connectivity array (two leading entries that
    are not zero, then for every element the markers 2, 3, 3, 0, 6 and six
    node numbers that are not zero) the filter returns exactly the rows of
    node numbers, in order. *)
Theorem structured_elements_of_connectivity :
  forall (d0 d1 : Z) (rows : list (list Z)),
    d0 <> 0%Z -> d1 <> 0%Z ->
    Forall element_row rows ->
    structured_elements (connectivity d0 d1 rows) = Ok rows.
Proof.
  intros d0 d1 rows Hd0 Hd1 Hrows. now apply structured_elements_rows.
Qed.

Lemma structured_elements_of_connectivity_witness :
  structured_elements
    [7; 9; 2; 3; 3; 0; 6; 1; 2; 3; 4; 5; 6;
     2; 3; 3; 0; 6; 2; 3; 4; 5; 6; 1]%Z
  = Ok [[1; 2; 3; 4; 5; 6]; [2; 3; 4; 5; 6; 1]]%Z.
Proof.
  apply (structured_elements_of_connectivity 7 9
           [[1; 2; 3; 4; 5; 6]; [2; 3; 4; 5; 6; 1]]%Z).
  - discriminate.
  - discriminate.
  - repeat constructor; discriminate.
Defined.

(* ================================================================= *)
(** ** [prepare_for_interpolation]: the whole function *)

Lemma structured_elements_error (elements : list Z) (e : exn) :
  structured_elements elements = Raise e -> e = ValueError.
Proof.
  unfold structured_elements, np_reshape. cbv zeta.
  match goal with
  | |- context [if ?b then _ else _] => destruct b
  end; [discriminate | congruence].
Qed.

Lemma mapM_error {A B} (f : A -> result B) (l : list A) (e0 e : exn) :
  (forall a e', f a = Raise e' -> e' = e0) ->
  mapM f l = Raise e -> e = e0.
Proof.
  intros Hf H. apply mapM_Raise in H. apply Exists_exists in H as (a & _ & Ha).
  eauto.
Qed.

Lemma node_coordinates_error (nodes : list node) (rows : list (list Z))
    (c : nat) (e : exn) :
  node_coordinates nodes rows c = Raise e -> e = IndexError.
Proof.
  unfold node_coordinates. apply mapM_error. intros row e'.
  apply mapM_error. intros z e''.
  destruct (np_take1 nodes (z - 1)) as [n|e3] eqn:E; [discriminate|].
  cbn [bind]. intros [= <-]. now apply np_take1_error in E.
Qed.

(** X18.  The function needs two coordinates that are not constant: when
    two of the three coordinates count as constant it never returns, and
    ends in [IndexError] (or in the [ValueError] of the reshape, when the
    filtered connectivity is not a multiple of six). *)
Theorem prepare_for_interpolation_needs_two_coordinates :
  forall (elements : list Z) (nodes : list node) (elem_solution : list float)
         (a b : nat),
    (a < 3)%nat -> (b < 3)%nat -> a <> b ->
    constant_coordinate nodes a = true ->
    constant_coordinate nodes b = true ->
    exists e,
      prepare_for_interpolation elements nodes elem_solution = Raise e /\
      (e = IndexError \/ e = ValueError).
Proof.
  intros elements nodes U a b Ha Hb Hab Hca Hcb.
  assert (Hshort : plot_coord nodes 1 = Raise IndexError).
  { unfold plot_coord, plot_coords. cbn [filter].
    destruct a as [|[|[|a]]], b as [|[|[|b]]]; try lia;
      rewrite Hca, Hcb; cbn [negb];
      repeat match goal with
             | |- context [constant_coordinate nodes ?k] =>
                 destruct (constant_coordinate nodes k)
             end; reflexivity. }
  unfold prepare_for_interpolation.
  destruct (structured_elements elements) as [rows|e] eqn:Es.
  2:{ apply structured_elements_error in Es. subst e.
      exists ValueError. split; [reflexivity | now right]. }
  cbn [bind].
  destruct (plot_coord nodes 0) as [c0|e] eqn:E0.
  2:{ unfold plot_coord in E0.
      destruct (nth_error (plot_coords nodes) 0); [discriminate|].
      injection E0 as <-.
      exists IndexError. split; [reflexivity | now left]. }
  cbn [bind].
  destruct (node_coordinates nodes rows c0) as [x|e] eqn:Ex.
  2:{ apply node_coordinates_error in Ex. subst e.
      exists IndexError. split; [reflexivity | now left]. }
  cbn [bind]. rewrite Hshort.
  exists IndexError. split; [reflexivity | now left].
Qed.

Lemma prepare_for_interpolation_needs_two_coordinates_witness :
  exists e,
    prepare_for_interpolation
      [7; 9; 2; 3; 3; 0; 6; 1; 2; 3; 1; 2; 3]%Z
      [(fl 0 1, fl 0 1, fl 4 1); (fl 1 1, fl 0 1, fl 4 1);
       (fl 2 1, fl 5 1, fl 4 1)]
      [fl 1 1; fl 2 1; fl 3 1] = Raise e /\
    (e = IndexError \/ e = ValueError).
Proof.
  apply (prepare_for_interpolation_needs_two_coordinates
           [7; 9; 2; 3; 3; 0; 6; 1; 2; 3; 1; 2; 3]%Z
           [(fl 0 1, fl 0 1, fl 4 1); (fl 1 1, fl 0 1, fl 4 1);
            (fl 2 1, fl 5 1, fl 4 1)]
           [fl 1 1; fl 2 1; fl 3 1] 0 2).
  - lia.
  - lia.
  - discriminate.
  - vm_compute. reflexivity.
  - vm_compute. reflexivity.
Defined.

Lemma node_coordinates_of_numbers (nodes : list node) (rows : list (list Z))
    (c : nat) :
  Forall (Forall (node_number nodes)) rows ->
  node_coordinates nodes rows c
  = Ok (map (map (node_coordinate nodes c)) rows).
Proof.
  unfold node_coordinates. induction 1 as [|row rows Hrow _ IH];
    [reflexivity|].
  cbn [mapM map]. rewrite IH.
  assert (Hr : mapM (fun e => n <- np_take1 nodes (e - 1) ;; Ok (coord c n))
                    row
               = Ok (map (node_coordinate nodes c) row)).
  { clear IH. induction Hrow as [|e row He _ IHr]; [reflexivity|].
    cbn [mapM map]. rewrite IHr. unfold node_number in He.
    destruct (np_take1_Ok nodes (e - 1)) as (n & Hn & Hnth).
    { unfold in_bounds. lia. }
    rewrite Hn. cbn [bind]. unfold node_coordinate.
    unfold wrap_index in Hnth.
    destruct (Z.ltb_spec (e - 1) 0); [lia|].
    now rewrite (nth_error_nth _ _ _ Hnth). }
  now rewrite Hr.
Qed.

Lemma same_shape_map {A B C} (f : A -> B) (g : A -> C)
    (rows : list (list A)) :
  same_shape (map (map f) rows) (map (map g) rows) = true.
Proof.
  induction rows as [|row rows IH]; [reflexivity|].
  cbn [map same_shape]. now rewrite !length_map, Nat.eqb_refl, IH.
Qed.

(** X19.  On a well-formed connectivity array whose node numbers are
    numbers of the mesh, and with at least two coordinates that are not
    constant, the function is the de-duplication step applied to the
    first two such coordinates of the nodes of the elements, row by row,
    and to [elem_solution] as it is: the solution is read at positions of
    the flattened connectivity, the node numbers are used for the
    coordinates only. *)
Theorem prepare_for_interpolation_of_mesh :
  forall (d0 d1 : Z) (rows : list (list Z)) (nodes : list node)
         (elem_solution : list float) (c0 c1 : nat) (others : list nat),
    d0 <> 0%Z -> d1 <> 0%Z ->
    Forall element_row rows ->
    Forall (Forall (node_number nodes)) rows ->
    plot_coords nodes = c0 :: c1 :: others ->
    prepare_for_interpolation (connectivity d0 d1 rows) nodes elem_solution
    = prepare_for_interpolation_unique
        (map (map (node_coordinate nodes c0)) rows)
        (map (map (node_coordinate nodes c1)) rows)
        elem_solution.
Proof.
  intros d0 d1 rows nodes U c0 c1 others Hd0 Hd1 Hrows Hnum Hpc.
  unfold prepare_for_interpolation.
  (* the filter, then the two lookups *)
  rewrite (structured_elements_rows d0 d1 rows Hd0 Hd1 Hrows). cbn [bind]. unfold plot_coord. rewrite Hpc. cbn [nth_error bind].
  rewrite !node_coordinates_of_numbers by assumption. reflexivity.
Qed.

Lemma prepare_for_interpolation_of_mesh_witness :
  prepare_for_interpolation
    [7; 9; 2; 3; 3; 0; 6; 1; 2; 3; 1; 2; 3]%Z
    [(fl 0 1, fl 0 1, fl 4 1); (fl 1 1, fl 0 1, fl 4 1);
     (fl 3 1, fl 5 1, fl 4 1)]
    [fl 1 1; fl 2 1; fl 3 1; fl 4 1; fl 5 1; fl 6 1]
  = prepare_for_interpolation_unique
      (map (map (node_coordinate
                   [(fl 0 1, fl 0 1, fl 4 1); (fl 1 1, fl 0 1, fl 4 1);
                    (fl 3 1, fl 5 1, fl 4 1)] 0))
           [[1; 2; 3; 1; 2; 3]]%Z)
      (map (map (node_coordinate
                   [(fl 0 1, fl 0 1, fl 4 1); (fl 1 1, fl 0 1, fl 4 1);
                    (fl 3 1, fl 5 1, fl 4 1)] 1))
           [[1; 2; 3; 1; 2; 3]]%Z)
      [fl 1 1; fl 2 1; fl 3 1; fl 4 1; fl 5 1; fl 6 1].
Proof.
  apply (prepare_for_interpolation_of_mesh 7 9 [[1; 2; 3; 1; 2; 3]]%Z
           [(fl 0 1, fl 0 1, fl 4 1); (fl 1 1, fl 0 1, fl 4 1);
            (fl 3 1, fl 5 1, fl 4 1)]
           [fl 1 1; fl 2 1; fl 3 1; fl 4 1; fl 5 1; fl 6 1] 0 1 []).
  - discriminate.
  - discriminate.
  - repeat constructor; discriminate.
  - each ltac:(unfold node_number; cbn [length]; lia).
  - vm_compute. reflexivity.
Defined.

Lemma mapM_Exists_Raise {A B} (f : A -> result B) (l : list A) :
  Exists (fun a => exists e, f a = Raise e) l ->
  exists e, mapM f l = Raise e.
Proof.
  induction 1 as [a l [e He] | a l _ [e IH]]; cbn [mapM].
  - rewrite He. now exists e.
  - destruct (f a) as [b|e']; cbn [bind].
    + rewrite IH. now exists e.
    + now exists e'.
Qed.

(** X20.  A node number beyond the mesh is refused: on a well-formed
    connectivity array in which some element names a node number greater
    than the number of nodes, the function raises [IndexError]; the
    number is neither clamped nor skipped. *)
Theorem prepare_for_interpolation_unknown_node :
  forall (d0 d1 : Z) (rows : list (list Z)) (nodes : list node)
         (elem_solution : list float),
    d0 <> 0%Z -> d1 <> 0%Z ->
    Forall element_row rows ->
    Exists (Exists (fun e => (Z.of_nat (length nodes) < e)%Z)) rows ->
    prepare_for_interpolation (connectivity d0 d1 rows) nodes elem_solution
    = Raise IndexError.
Proof.
  intros d0 d1 rows nodes U Hd0 Hd1 Hrows Hbig.
  unfold prepare_for_interpolation.
  rewrite (structured_elements_rows d0 d1 rows Hd0 Hd1 Hrows). cbn [bind].
  destruct (plot_coord nodes 0) as [c0|e] eqn:E0.
  2:{ unfold plot_coord in E0.
      destruct (nth_error (plot_coords nodes) 0); [discriminate|].
      now injection E0 as <-. }
  cbn [bind].
  destruct (mapM_Exists_Raise
              (mapM (fun e => n <- np_take1 nodes (e - 1) ;; Ok (coord c0 n)))
              rows) as [e He].
  { eapply Exists_impl; [|exact Hbig]. intros row Hrow.
    apply mapM_Exists_Raise.
    eapply Exists_impl; [|exact Hrow]. intros z Hz. cbv beta in Hz.
    exists IndexError. rewrite np_take1_Raise; [reflexivity|].
    unfold in_bounds. lia. }
  fold (node_coordinates nodes rows c0) in He.
  pose proof (node_coordinates_error nodes rows c0 e He) as ->.
  now rewrite He.
Qed.

Lemma prepare_for_interpolation_unknown_node_witness :
  prepare_for_interpolation
    [7; 9; 2; 3; 3; 0; 6; 1; 2; 3; 1; 2; 4]%Z
    [(fl 0 1, fl 0 1, fl 4 1); (fl 1 1, fl 0 1, fl 4 1);
     (fl 3 1, fl 5 1, fl 4 1)]
    [fl 1 1; fl 2 1; fl 3 1; fl 4 1; fl 5 1; fl 6 1]
  = Raise IndexError.
Proof.
  apply (prepare_for_interpolation_unknown_node 7 9 [[1; 2; 3; 1; 2; 4]]%Z
           [(fl 0 1, fl 0 1, fl 4 1); (fl 1 1, fl 0 1, fl 4 1);
            (fl 3 1, fl 5 1, fl 4 1)]
           [fl 1 1; fl 2 1; fl 3 1; fl 4 1; fl 5 1; fl 6 1]).
  - discriminate.
  - discriminate.
  - repeat constructor; discriminate.
  - apply Exists_cons_hd. do 5 apply Exists_cons_tl. apply Exists_cons_hd.
    cbn [length]. lia.
Defined.
